(** * powerplantmatching: vertical cleaning of a power plant data set

    A shallow embedding of [powerplantmatching/cleaning.py]: the name
    normaliser ([clean_powerplantname]), the attribute classifiers
    ([gather_fueltype_info], [gather_technology_info], [gather_set_info]),
    the duplicate-group resolver ([cliques]), the aggregator
    ([aggregate_units] with its local [prop_for_groups]) and the driver
    ([clean_single]).

    Conventions of the embedding.
    - A pandas object column holds [option string] cells ([None] is the
      null value, NaN or None).
    - A numeric column holds [float] cells: exact rationals extended with
      the IEEE special values.  Rounding and overflow are not modelled, so
      nothing is proved here from a law of the rationals that doubles do
      not have (associativity of the sum, distribution of a quotient
      over it): the properties of numeric cells say which cells enter a
      result, how they compare, and what a sample evaluates to.
    - A raised Python exception is the [Raise] branch of [result].
    - A pattern that is made from the data may be no regular expression;
      compiling it then raises [re.error] ([ReError]).
    - The libraries the module calls (networkx clique enumeration, the
      regular expression engine, the external matcher, the file system)
      are parameters of the functions that use them; a reference
      enumeration and a reference engine are given to run the functions
      on samples.
    - The resolver, the aggregator and the driver build a new frame at
      every step and are embedded on frames as values.  The classifiers
      write into columns, and are embedded over a store of column
      buffers.
    The definitions come first, in the order of the source where that is
    possible; the properties follow, part by part. *)

From Stdlib Require Import QArith Ascii.
From stdpp Require Import base list gmap strings sorting.

Close Scope Q_scope.

(* stdpp's solvers clear hypotheses by name, present or not. *)
Set Warnings "-clear-no-such-hyp".

(** ** Exceptions and results *)

Inductive exn : Set :=
  | ValueError
  | TypeError
  | KeyError
  | IndexError
  | IOError
  | AttributeError
  | UnboundLocalError
  | ReError.           (* re.error *)

#[global] Instance exn_eq_dec : EqDecision exn.
Proof. solve_decision. Defined.

Inductive result (A : Type) : Type :=
  | Ok (a : A)
  | Raise (e : exn).

Arguments Ok {A} a.
Arguments Raise {A} e.

#[global] Instance result_ret : MRet result := λ A a, Ok a.

#[global] Instance result_bind : MBind result := λ A B k m,
  match m with
  | Ok a => k a
  | Raise e => Raise e
  end.

(** ** Numeric cells *)

Inductive float : Set :=
  | Fin (q : Q)
  | PInf
  | NInf
  | NaN.

Definition isnull (x : float) : bool :=
  match x with NaN => true | _ => false end.

(** Equality of numeric cells as values: rationals up to [Qeq], and, as a
    convention of the embedding, NaN equal to NaN (it stands for the null
    cell). *)
Definition float_eqb (x y : float) : bool :=
  match x, y with
  | Fin a, Fin b => Qeq_bool a b
  | PInf, PInf | NInf, NInf | NaN, NaN => true
  | _, _ => false
  end.

Definition Qsign (q : Q) : comparison := (q ?= 0)%Q.

Definition fadd (x y : float) : float :=
  match x, y with
  | NaN, _ | _, NaN => NaN
  | PInf, NInf | NInf, PInf => NaN
  | PInf, _ | _, PInf => PInf
  | NInf, _ | _, NInf => NInf
  | Fin a, Fin b => Fin (a + b)%Q
  end.

Definition finf (s : comparison) : float :=
  match s with Gt => PInf | Lt => NInf | Eq => NaN end.

Definition fsign (x : float) : comparison :=
  match x with
  | Fin a => Qsign a
  | PInf => Gt
  | NInf => Lt
  | NaN => Eq
  end.

Definition sign_mul (s t : comparison) : comparison :=
  match s, t with
  | Eq, _ | _, Eq => Eq
  | Gt, Gt | Lt, Lt => Gt
  | _, _ => Lt
  end.

Definition fmul (x y : float) : float :=
  match x, y with
  | NaN, _ | _, NaN => NaN
  | Fin a, Fin b => Fin (a * b)%Q
  | _, _ => finf (sign_mul (fsign x) (fsign y))
  end.

(** Division as numpy performs it on doubles: a finite value divided by
    zero is an infinity of the sign of the dividend, zero by zero is NaN.
    The sign of a zero is not modelled; a zero divisor counts as positive. *)
Definition fdiv (x y : float) : float :=
  match x, y with
  | NaN, _ | _, NaN => NaN
  | Fin a, Fin b =>
      if Qeq_bool b 0 then finf (Qsign a) else Fin (a / b)%Q
  | Fin _, _ => Fin 0
  | _, Fin b => finf (sign_mul (fsign x) (match Qsign b with Lt => Lt | _ => Gt end))
  | _, _ => NaN
  end.

Definition fle (x y : float) : bool :=
  match x, y with
  | NaN, _ | _, NaN => false
  | NInf, _ | _, PInf => true
  | Fin a, Fin b => Qle_bool a b
  | _, _ => false
  end.

(** [Series.fillna(v)] on a numeric column. *)
Definition fillna (v : float) (x : float) : float :=
  if isnull x then v else x.

(** [Series.sum()]: null cells are skipped, the empty sum is 0. *)
Definition fsum (xs : list float) : float :=
  foldr fadd (Fin 0) (filter (λ x, isnull x = false) xs).

(** [Series.mean()]: null cells are skipped, the mean of no cell is NaN. *)
Definition fmean (xs : list float) : float :=
  let ys := filter (λ x, isnull x = false) xs in
  match ys with
  | [] => NaN
  | _ => fdiv (foldr fadd (Fin 0) ys) (Fin (inject_Z (Z.of_nat (length ys))))
  end.

(** [Series.min()]: null cells are skipped, the minimum of no cell is NaN. *)
Definition fmin2 (x y : float) : float := if fle x y then x else y.

Definition fmin (xs : list float) : float :=
  match filter (λ x, isnull x = false) xs with
  | [] => NaN
  | y :: ys => foldl fmin2 y ys
  end.

(** [Series.replace(a, b)] on a numeric column. *)
Definition freplace (a b : float) (x : float) : float :=
  if float_eqb x a then b else x.

(** ** Record sets *)

(** Row labels of a frame ([df.index]). *)
Definition label := nat.

(** A row.  [P] is the type of the [projectID] cell: an identifier in a
    source frame ([Unit]), the list of the member identifiers in an
    aggregated frame ([Plant]). *)
Record Row (P : Type) : Type := mkRow {
  projectID : P;
  Name : option string;
  Country : option string;
  Fueltype : option string;
  Technology : option string;
  Set_ : option string;
  Capacity : float;
  lat : float;
  lon : float;
  YearCommissioned : float;
  File : option string;
  Duration : float;
  grouped : option nat
}.

Arguments mkRow {P}.
Arguments projectID {P}.
Arguments Name {P}.
Arguments Country {P}.
Arguments Fueltype {P}.
Arguments Technology {P}.
Arguments Set_ {P}.
Arguments Capacity {P}.
Arguments lat {P}.
Arguments lon {P}.
Arguments YearCommissioned {P}.
Arguments File {P}.
Arguments Duration {P}.
Arguments grouped {P}.

(** A frame: its rows with their labels, in row order.  The columns
    [Duration] and [grouped] are optional; the flags say whether the frame
    has them (the cell of an absent column is not read). *)
Record DataFrame (P : Type) : Type := mkFrame {
  rows : list (label * Row P);
  has_Duration : bool;
  has_grouped : bool
}.

Arguments mkFrame {P}.
Arguments rows {P}.
Arguments has_Duration {P}.
Arguments has_grouped {P}.

Abbreviation Unit := (Row (option string)).
Abbreviation Units := (DataFrame (option string)).
Abbreviation Plant := (Row (option (list (option string)))).
Abbreviation Plants := (DataFrame (option (list (option string)))).

Definition index {P} (df : DataFrame P) : list label := (rows df).*1.

(** The cells of a column, in row order ([x['Name']]). *)
Definition column {P A} (f : Row P → A) (x : list (label * Row P)) : list A :=
  f ∘ snd <$> x.

Definition set_Name {P} (n : option string) (r : Row P) : Row P :=
  mkRow (projectID r) n (Country r) (Fueltype r) (Technology r) (Set_ r)
        (Capacity r) (lat r) (lon r) (YearCommissioned r) (File r)
        (Duration r) (grouped r).

Definition set_grouped {P} (g : option nat) (r : Row P) : Row P :=
  mkRow (projectID r) (Name r) (Country r) (Fueltype r) (Technology r)
        (Set_ r) (Capacity r) (lat r) (lon r) (YearCommissioned r) (File r)
        (Duration r) g.

Definition set_projectID {P Q} (p : Q) (r : Row P) : Row Q :=
  mkRow p (Name r) (Country r) (Fueltype r) (Technology r)
        (Set_ r) (Capacity r) (lat r) (lon r) (YearCommissioned r) (File r)
        (Duration r) (grouped r).

Definition set_Technology {P} (t : option string) (r : Row P) : Row P :=
  mkRow (projectID r) (Name r) (Country r) (Fueltype r) t
        (Set_ r) (Capacity r) (lat r) (lon r) (YearCommissioned r) (File r)
        (Duration r) (grouped r).

Definition set_Duration {P} (d : float) (r : Row P) : Row P :=
  mkRow (projectID r) (Name r) (Country r) (Fueltype r) (Technology r)
        (Set_ r) (Capacity r) (lat r) (lon r) (YearCommissioned r) (File r)
        d (grouped r).

(** * Strings and patterns *)

(** Python [str] methods, on the ASCII letters and the ASCII white space.
    A string is its sequence of bytes; bytes above 127 have no case and are
    no white space. *)
Module Str.

Definition is_upper (c : ascii) : bool :=
  let n := nat_of_ascii c in (65 <=? n) && (n <=? 90).

Definition is_lower (c : ascii) : bool :=
  let n := nat_of_ascii c in (97 <=? n) && (n <=? 122).

Definition is_alpha (c : ascii) : bool := is_upper c || is_lower c.

Definition is_digit (c : ascii) : bool :=
  let n := nat_of_ascii c in (48 <=? n) && (n <=? 57).

Definition lower_char (c : ascii) : ascii :=
  if is_upper c then ascii_of_nat (nat_of_ascii c + 32) else c.

Definition upper_char (c : ascii) : ascii :=
  if is_lower c then ascii_of_nat (nat_of_ascii c - 32) else c.

Fixpoint lower (s : string) : string :=
  match s with
  | EmptyString => EmptyString
  | String c r => String (lower_char c) (lower r)
  end.

(** [str.capitalize()]: the first character in upper case, the rest in
    lower case. *)
Definition capitalize (s : string) : string :=
  match s with
  | EmptyString => EmptyString
  | String c r => String (upper_char c) (lower r)
  end.

(** [str.title()]: a letter that follows a letter in lower case, any other
    letter in upper case. *)
Fixpoint title_go (after_letter : bool) (s : string) : string :=
  match s with
  | EmptyString => EmptyString
  | String c r =>
      String (if after_letter then lower_char c else upper_char c)
             (title_go (is_alpha c) r)
  end.

Definition title : string → string := title_go false.

(** [str.split()]: the words between runs of white space. *)
Definition split : string → list string := String.words.

Fixpoint lstrip (s : string) : string :=
  match s with
  | EmptyString => EmptyString
  | String c r => if Ascii.is_space c then lstrip r else s
  end.

(** [str.strip()] *)
Definition strip (s : string) : string :=
  String.rev (lstrip (String.rev (lstrip s))).

(** [sep.join(l)] *)
Fixpoint join (sep : string) (l : list string) : string :=
  match l with
  | [] => EmptyString
  | [x] => x
  | x :: l' => x +:+ sep +:+ join sep l'
  end.

(** [p] is at the head of [s]: what is left of [s] after it. *)
Fixpoint strip_prefix (p s : string) : option string :=
  match p, s with
  | EmptyString, _ => Some s
  | String a p', String b s' => if decide (a = b) then strip_prefix p' s' else None
  | String _ _, EmptyString => None
  end.

Definition strip_suffix (p s : string) : option string :=
  String.rev <$> strip_prefix (String.rev p) (String.rev s).

(** [s.split(sep)] for a non-empty separator. *)
Fixpoint split_on_go (sep : string) (skip : nat) (cur : string) (s : string)
  : list string :=
  match s with
  | EmptyString => [String.rev cur]
  | String c r =>
      match skip with
      | S k => split_on_go sep k cur r
      | O =>
          match strip_prefix sep s with
          | Some _ => String.rev cur :: split_on_go sep (String.length sep - 1) EmptyString r
          | None => split_on_go sep 0 (String c cur) r
          end
      end
  end.

Definition split_on (sep s : string) : list string := split_on_go sep 0 EmptyString s.

End Str.

(** The regular expression engine behind [Series.replace(regex=True)],
    [Series.str.contains] and [Series.str.findall].  [re.compile] raises
    [re.error] on a text that is no regular expression; the patterns that
    are written out in the module are regular expressions, so the question
    is put, with [re_compiles], for the patterns that are made from the
    data. *)
Record Regex : Type := mkRegex {
  (** [re.sub(pattern, repl, s)] *)
  re_sub : string → string → string → string;
  (** [re.search(pattern, s)] finds a match; [true] as first argument is
      the flag [re.IGNORECASE] *)
  re_search : bool → string → string → bool;
  (** [re.findall(pattern, s)] *)
  re_findall : string → string → list string;
  (** [re.compile(pattern)] returns *)
  re_compiles : string → bool
}.

(** A reference engine, for the patterns this module builds from words
    without meta-characters: a literal, an alternation of literals, one
    of the classes [[0-9]] and [[a-z]], an escaped character, [\s+], and a
    word between [(^|\s)] and [(?=\s|$)], each with or without the flag
    [(?i)] in front.  It compiles these patterns and no other, and on a
    pattern it does not compile it finds no match. *)
Module RefRegex.

Inductive atom : Set :=
  | AChar (c : ascii)
  | ADigit
  | ALetter.

Inductive pat : Set :=
  | PAlt (alts : list (list atom))
  | PWord (x : list atom)
  | PSpaces.

Definition is_meta (c : ascii) : bool :=
  bool_decide (c ∈ String.list_ascii_of_string ".^$*+?{}[]\|()").

Fixpoint parse_atoms (s : string) : option (list atom) :=
  match s with
  | EmptyString => Some []
  | String "\" (String c r) =>
      if is_meta c then cons (AChar c) <$> parse_atoms r else None
  | String c r =>
      if is_meta c then None else cons (AChar c) <$> parse_atoms r
  end.

Definition parse_item (s : string) : option (list atom) :=
  if decide (s = "[0-9]") then Some [ADigit]
  else if decide (s = "[a-z]") then Some [ALetter]
  else match parse_atoms s with
       | Some [] => None
       | r => r
       end.

(** An alternative with its flag taken off: the flag was there or not. *)
Definition unflag (s : string) : bool * string :=
  match Str.strip_prefix "(?i)" s with
  | Some r => (true, r)
  | None => (false, s)
  end.

(** The pattern and whether it asks to ignore case. *)
Definition parse (s : string) : option (bool * pat) :=
  let (icase, body) := unflag s in
  if decide (body = "\s+") then Some (icase, PSpaces)
  else
    match Str.strip_prefix "(^|\s)" body ≫= Str.strip_suffix "(?=\s|$)" with
    | Some x => (λ a, (icase, PWord a)) <$> parse_item x
    | None =>
        let alts := unflag <$> Str.split_on "|" body in
        (λ a, (icase || existsb fst alts, PAlt a))
          <$> mapM (λ p : bool * string, parse_item p.2) alts
    end.

Definition match_atom (icase : bool) (a : atom) (c : ascii) : bool :=
  match a with
  | AChar x =>
      if icase then bool_decide (Str.lower_char x = Str.lower_char c)
      else bool_decide (x = c)
  | ADigit => Str.is_digit c
  | ALetter => Str.is_lower c || (icase && Str.is_upper c)
  end.

(** The atoms match at the head of [s]: what is left of [s]. *)
Fixpoint match_atoms (icase : bool) (x : list atom) (s : string) : option string :=
  match x, s with
  | [], _ => Some s
  | a :: x', String c r => if match_atom icase a c then match_atoms icase x' r else None
  | _ :: _, EmptyString => None
  end.

Definition at_boundary (s : string) : bool :=
  match s with
  | EmptyString => true
  | String c _ => Ascii.is_space c
  end.

Fixpoint count_spaces (s : string) : nat :=
  match s with
  | String c r => if Ascii.is_space c then S (count_spaces r) else 0
  | EmptyString => 0
  end.

(** The length of the match of the pattern that starts at the head of
    [s], if there is one; [start] says that [s] is the whole subject. *)
Definition match_here (icase : bool) (p : pat) (start : bool) (s : string)
  : option nat :=
  match p with
  | PAlt alts =>
      (list_find (λ x, is_Some (match_atoms icase x s)) alts) ≫= (λ ix, Some (length ix.2))
  | PWord x =>
      let word (t : string) :=
        match match_atoms icase x t with
        | Some r => at_boundary r
        | None => false
        end in
      if start && word s then Some (length x)
      else match s with
           | String c r =>
               if Ascii.is_space c && word r then Some (S (length x)) else None
           | EmptyString => None
           end
  | PSpaces => match count_spaces s with 0 => None | n => Some n end
  end.

Fixpoint take_string (n : nat) (s : string) : string :=
  match n, s with
  | S k, String c r => String c (take_string k r)
  | _, _ => EmptyString
  end.

(** The matches of the pattern in [s], from left to right, without
    overlap: the text between them and the matched texts. *)
Fixpoint scan (icase : bool) (p : pat) (start : bool) (skip : nat) (s : string)
  : list (string + ascii) :=
  match s with
  | EmptyString => []
  | String c r =>
      match skip with
      | S k => scan icase p false k r
      | O =>
          match match_here icase p start s with
          | Some (S n) => inl (take_string (S n) s) :: scan icase p false n r
          | _ => inr c :: scan icase p false 0 r
          end
      end
  end.

Definition sub (pattern repl s : string) : string :=
  match parse pattern with
  | Some (icase, p) =>
      foldr (λ (m : string + ascii) acc,
               match m with inl _ => repl +:+ acc | inr c => String c acc end)
            EmptyString (scan icase p true 0 s)
  | None => s
  end.

Definition findall (pattern s : string) : list string :=
  match parse pattern with
  | Some (icase, p) =>
      omap (λ m : string + ascii, match m with inl t => Some t | inr _ => None end)
           (scan icase p true 0 s)
  | None => []
  end.

Definition search (ignore_case : bool) (pattern s : string) : bool :=
  match parse pattern with
  | Some (icase, p) =>
      existsb (λ m : string + ascii, match m with inl _ => true | inr _ => false end)
              (scan (icase || ignore_case) p true 0 s)
  | None => false
  end.

Definition compiles (pattern : string) : bool :=
  bool_decide (is_Some (parse pattern)).

Definition engine : Regex := mkRegex sub search findall compiles.

End RefRegex.

(** * Columns *)

(** The distinct values of a list, in the order of their first
    occurrence. *)
Fixpoint uniq `{EqDecision A} (l : list A) : list A :=
  match l with
  | [] => []
  | x :: l' => x :: filter (λ y, y ≠ x) (uniq l')
  end.

Definition count `{EqDecision A} (x : A) (l : list A) : nat :=
  length (filter (λ y, y = x) l).

(** The order of [value_counts]: by falling count. *)
Definition count_ge {A} (a b : A * nat) : Prop := b.2 ≤ a.2.

#[global] Instance count_ge_dec {A} : RelDecision (@count_ge A).
Proof. intros a b. unfold count_ge. apply _. Defined.

#[global] Instance count_ge_trans {A} : Transitive (@count_ge A).
Proof. intros a b c. unfold count_ge. lia. Qed.

#[global] Instance count_ge_total {A} : Total (@count_ge A).
Proof. intros a b. unfold count_ge. lia. Qed.

(** [Series.value_counts(dropna=False)]: the distinct values with the
    number of their occurrences, the most frequent first.  Which of the
    values of one frequency comes first is left open by pandas; the
    embedding takes the order of the merge sort on the values in the order
    they are first met.  With [dropna=True], the default, it is applied to
    [dropna] of the column. *)
Definition value_counts `{EqDecision A} (l : list A) : list (A * nat) :=
  merge_sort count_ge ((λ x, (x, count x l)) <$> uniq l).

(** [v] is a most frequent value of [l]. *)
Definition is_mode `{EqDecision A} (v : A) (l : list A) : Prop :=
  v ∈ l ∧ ∀ w, count w l ≤ count v l.

(** [Series.dropna()] on an object column. *)
Definition dropna {A} (l : list (option A)) : list A := omap id l.

(** [s.index[0]]: [IndexError] on an empty index. *)
Definition index0 {A B} (l : list (A * B)) : result A :=
  match l with
  | [] => Raise IndexError
  | x :: _ => Ok x.1
  end.

(** * Name normaliser *)

Module Normalizer.

(** [sum(lists, [])] over the cells of [name.str.split()]: a null cell is
    a float, and adding it to a list raises [TypeError]. *)
Fixpoint sum_lists (acc : list string) (cells : list (option (list string)))
  : result (list string) :=
  match cells with
  | [] => Ok acc
  | Some l :: cells' => sum_lists (acc ++ l) cells'
  | None :: _ => Raise TypeError
  end.

Definition filler_words : list string :=
  ["[a-z]"; "I"; "II"; "III"; "IV"; "V"; "VI"; "VII"; "VIII";
   "IX"; "X"; "XI"; "Grupo"; "parque"; "eolico"; "gas";
   "biomasa"; "COGENERACION"; "gt"; "unnamed";
   "tratamiento de purines"; "planta"; "de"; "la"; "station";
   "power"; "storage"; "plant"; "stage"; "pumped"; "project";
   "dt"; "gud"; "hkw"; "kbr"; "Kernkraft"; "Kernkraftwerk";
   "kwg"; "krb"; "ohu"; "gkn"; "Gemeinschaftskernkraftwerk";
   "kki"; "kkp"; "kle"; "wkw"; "rwe"; "bis"; "nordsee"; "ostsee";
   "dampfturbinenanlage"; "ikw"; "kw"; "kohlekraftwerk";
   "raffineriekraftwerk"].

Definition noise_characters : list string :=
  ["-"; "/"; ","; "\("; "\)"; "\["; "\]"; "\+"; "[0-9]"].

(** The threshold of [common_words >= 20]. *)
Definition common_word_threshold : nat := 20.

(** Order of [sort_values('Name')]: by string, null cells last.  The order
    of rows with one name is left open by pandas; the embedding takes the
    order of the merge sort. *)
Definition name_le (a b : option string) : Prop :=
  match a, b with
  | Some x, Some y => String.le x y
  | _, None => True
  | None, Some _ => False
  end.

#[global] Instance name_le_dec : RelDecision name_le.
Proof. intros [x|] [y|]; simpl; apply _. Defined.

Definition row_name_le {P} (a b : label * Row P) : Prop :=
  name_le (Name a.2) (Name b.2).

#[global] Instance row_name_le_dec {P} : RelDecision (@row_name_le P).
Proof. intros a b. unfold row_name_le. apply _. Defined.

#[global] Instance name_le_trans : Transitive name_le.
Proof.
  intros [x|] [y|] [z|]; simpl; try done.
  intros ? ?. by etrans.
Qed.

#[global] Instance name_le_total : Total name_le.
Proof.
  intros [x|] [y|]; simpl; auto. apply (total String.le).
Qed.

#[global] Instance row_name_le_trans {P} : Transitive (@row_name_le P).
Proof. intros a b c. unfold row_name_le. apply name_le_trans. Qed.

#[global] Instance row_name_le_total {P} : Total (@row_name_le P).
Proof. intros a b. unfold row_name_le. apply name_le_total. Qed.

Section clean_powerplantname.

Variable re : Regex.

(** [Series.replace(regex=True, to_replace=patterns, value=value)] on one
    cell: the patterns are applied one after the other; a null cell stays
    null. *)
Definition replace_regex (patterns : list string) (value : string)
  (cell : option string) : option string :=
  (λ s, foldl (λ acc p, re_sub re p value acc) s patterns) <$> cell.

(** The words that occur [common_word_threshold] times or more in the
    batch. *)
Definition common_words (tokens : list string) : list string :=
  (filter (λ c : string * nat, common_word_threshold ≤ c.2) (value_counts tokens)).*1.

Definition word_pattern (x : string) : string :=
  "(?i)(^|\s)" +:+ x +:+ "(?=\s|$)".

(** The cleaned cell, given the patterns of the batch. *)
Definition clean_cell (pattern : list string) (cell : option string) : option string :=
  Str.capitalize <$> (Str.strip <$>
    replace_regex ["\s+"] " " (replace_regex pattern " " cell)).


(** [clean_powerplantname].  The patterns of the common words are compiled
    when the second replacement is made, and [re.error] is raised when
    one of them is no regular expression. *)
Definition clean_powerplantname {P} (df : DataFrame P) : result (DataFrame P) :=
  let name := replace_regex noise_characters " " <$> (Name ∘ snd <$> rows df) in
  tokens ← sum_lists [] (fmap Str.split <$> name);
  let cw := common_words tokens in
  let pattern := word_pattern <$> (cw ++ filler_words) in
  if forallb (re_compiles re) (word_pattern <$> cw) then
    let name := clean_cell pattern <$> name in
    let assigned :=
      zip_with (λ (lr : label * Row P) n, (lr.1, set_Name n lr.2)) (rows df) name in
    let kept := filter (λ lr : label * Row P, Name lr.2 ≠ Some "") assigned in
    let sorted := merge_sort row_name_le kept in
    Ok (mkFrame (imap (λ i (lr : label * Row P), (i, lr.2)) sorted)
                (has_Duration df) (has_grouped df))
  else Raise ReError.

End clean_powerplantname.

End Normalizer.

(** * Duplicate-group resolver *)

Module Resolver.

(** ** Graphs *)

(** [nx.DiGraph]: nodes in insertion order, directed edges. *)
Record DiGraph : Set := mkDiGraph {
  nodes : list label;
  edges : list (label * label)
}.

Definition empty_digraph : DiGraph := mkDiGraph [] [].

Definition add_node (n : label) (ns : list label) : list label :=
  if decide (n ∈ ns) then ns else ns ++ [n].

Definition add_nodes_from (G : DiGraph) (ns : list label) : DiGraph :=
  mkDiGraph (foldl (λ acc n, add_node n acc) (nodes G) ns) (edges G).

Definition add_edge (G : DiGraph) (e : label * label) : DiGraph :=
  mkDiGraph (add_node e.2 (add_node e.1 (nodes G)))
            (if decide (e ∈ edges G) then edges G else edges G ++ [e]).

Definition add_edges_from (G : DiGraph) (es : list (label * label)) : DiGraph :=
  foldl add_edge G es.

(** [G.to_undirected(reciprocal=True)]: the nodes of [G] and the edges of
    [G] that [G] has in both directions. *)
Record Graph : Set := mkGraph {
  gnodes : list label;
  gedges : list (label * label)
}.

Definition to_undirected_reciprocal (G : DiGraph) : Graph :=
  mkGraph (nodes G)
          (filter (λ e, (e.2, e.1) ∈ edges G) (edges G)).

(** Adjacency as clique enumeration sees it: self loops are ignored. *)
Definition adj (H : Graph) (u v : label) : Prop :=
  u ≠ v ∧ ((u, v) ∈ gedges H ∨ (v, u) ∈ gedges H).

#[global] Instance adj_dec H u v : Decision (adj H u v).
Proof. unfold adj. apply _. Defined.

Definition is_clique (H : Graph) (c : list label) : Prop :=
  NoDup c ∧
  Forall (λ u, u ∈ gnodes H) c ∧
  Forall (λ u, Forall (λ v, u = v ∨ adj H u v) c) c.

Definition is_maximal_clique (H : Graph) (c : list label) : Prop :=
  is_clique H c ∧ c ≠ [] ∧
  Forall (λ w, w ∈ c ∨ Exists (λ u, ¬ adj H u w) c) (gnodes H).

#[global] Instance is_clique_dec H c : Decision (is_clique H c).
Proof. unfold is_clique. apply _. Defined.

#[global] Instance is_maximal_clique_dec H c : Decision (is_maximal_clique H c).
Proof. unfold is_maximal_clique. apply _. Defined.

(** What [nx.algorithms.clique.find_cliques] promises about the list it
    yields for [H]: its members are maximal cliques, and every maximal
    clique is among them, with its nodes in some order.  The order of the
    list and of the nodes inside a clique is left open. *)
Definition enumerates_maximal_cliques (H : Graph) (cs : list (list label)) : Prop :=
  Forall (is_maximal_clique H) cs ∧
  ∀ c, is_maximal_clique H c → Exists (λ c', c' ≡ₚ c) cs.

(** A reference enumeration: the subsequences of the node list that are
    maximal cliques. *)
Fixpoint subseqs {A} (l : list A) : list (list A) :=
  match l with
  | [] => [[]]
  | x :: l' => subseqs l' ++ (cons x <$> subseqs l')
  end.

Definition find_cliques_ref (H : Graph) : list (list label) :=
  filter (is_maximal_clique H) (subseqs (remove_dups (gnodes H))).

(** Greedy growth of a clique [c] by the nodes [ws], in order: a node
    joins when it is adjacent to every member so far. *)
Fixpoint extend_clique (H : Graph) (c ws : list label) : list label :=
  match ws with
  | [] => c
  | w :: ws' =>
      if decide ((w ∉ c) ∧ Forall (λ u, adj H u w) c)
      then extend_clique H (w :: c) ws'
      else extend_clique H c ws'
  end.

(** ** The resolver *)

(** A column of group numbers, by label: [pd.Series(np.nan, index=df.index)]. *)
Definition Series := list (label * option nat).

(** [grouped.loc[inds] = i]: every row whose label is in [inds] is set; a
    label of [inds] that the column does not have raises [KeyError]. *)
Definition loc_set (grouped : Series) (inds : list label) (i : nat) : result Series :=
  if decide (Forall (λ l, l ∈ grouped.*1) inds)
  then Ok ((λ c : label * option nat,
              if decide (c.1 ∈ inds) then (c.1, Some i) else c) <$> grouped)
  else Raise KeyError.

(** The loop [for i, inds in enumerate(...): grouped.loc[inds] = i],
    entered with counter [i]. *)
Fixpoint assign_cliques (i : nat) (cs : list (list label)) (grouped : Series)
  : result Series :=
  match cs with
  | [] => Ok grouped
  | inds :: cs' =>
      grouped' ← loc_set grouped inds i;
      assign_cliques (S i) cs' grouped'
  end.

(** [df.assign(grouped=grouped)] for a column that has the index of [df]. *)
Definition assign_grouped (df : Units) (grouped : Series) : Units :=
  mkFrame (zip_with (λ (lr : label * Unit) (c : label * option nat),
                       (lr.1, set_grouped c.2 lr.2)) (rows df) grouped)
          (has_Duration df) true.

Definition match_graph (df : Units) (dataduplicates : list (label * label)) : Graph :=
  let G := empty_digraph in
  let G := add_nodes_from G (index df) in
  let G := add_edges_from G dataduplicates in
  to_undirected_reciprocal G.

Section cliques.
(** [nx.algorithms.clique.find_cliques] *)
Variable find_cliques : Graph → list (list label).

Definition cliques (df : Units) (dataduplicates : list (label * label))
    : result Units :=
  let H := match_graph df dataduplicates in
  let grouped := (λ l, (l, None)) <$> index df in
  grouped ← assign_cliques 0 (find_cliques H) grouped;
  Ok (assign_grouped df grouped).

End cliques.

(** The group number of the row labelled [l]. *)
Definition group_of (df : Units) (l : label) : option nat :=
  (list_find (λ lr : label * Unit, lr.1 = l) (rows df)) ≫= (λ p, grouped p.2.2).

(** The clique that wins a record: the last one in enumeration order that
    has it. *)
Fixpoint last_clique_from (i : nat) (cs : list (list label)) (l : label) : option nat :=
  match cs with
  | [] => None
  | c :: cs' =>
      match last_clique_from (S i) cs' l with
      | Some j => Some j
      | None => if decide (l ∈ c) then Some i else None
      end
  end.

Definition last_clique_index := last_clique_from 0.

(** A cell of the column after the loop over [cs], entered with counter [i]. *)
Definition final_cell (i : nat) (cs : list (list label)) (c : label * option nat)
  : label * option nat :=
  (c.1, match last_clique_from i cs c.1 with Some j => Some j | None => c.2 end).

(** The first clique in enumeration order that has the record. *)
Definition first_clique_index (cs : list (list label)) (l : label) : option nat :=
  fst <$> list_find (λ c, l ∈ c) cs.

(** Rows of a frame by group number: the keys in increasing order, null
    keys dropped, the rows of a group in frame order
    ([df.groupby('grouped')]). *)
Definition group_keys (df : Units) : list nat :=
  merge_sort (≤) (remove_dups (omap (λ lr : label * Unit, grouped lr.2) (rows df))).

Definition group_rows (df : Units) (g : nat) : list (label * Unit) :=
  filter (λ lr : label * Unit, grouped lr.2 = Some g) (rows df).

Definition groupby_grouped (df : Units) : list (nat * list (label * Unit)) :=
  (λ g, (g, group_rows df g)) <$> group_keys df.

End Resolver.

(** * Technology canonicaliser *)

Module Canonicalizer.

Section clean_technology.

Variable re : Regex.

(** [tech[tech.str.contains(pattern, case=False)] = value] on one cell. *)
Definition set_where_contains (pattern value : string) (cell : string) : string :=
  if re_search re true pattern cell then value else cell.

(** [Series.replace(d, regex=True)] on one cell, the keys of [d] in the
    order they are written. *)
Definition replace_regex_dict (d : list (string * string)) (cell : string) : string :=
  foldl (λ acc kv, re_sub re kv.1 kv.2 acc) cell d.

(** [np.unique]: the distinct items, sorted. *)
Definition np_unique (l : list string) : list string :=
  merge_sort String.le (remove_dups l).

Definition clean_technology_cell (generalize_hydros : bool) (tech : string) : string :=
  let tech := replace_regex_dict
                [(" and ", ", "); (" Power Plant", ""); ("Battery", "")] tech in
  let tech :=
    if generalize_hydros then
      let tech := set_where_contains "pump" "Pumped Storage" tech in
      let tech := set_where_contains "reservoir|lake" "Reservoir" tech in
      let tech := set_where_contains "run-of-river|weir|water" "Run-Of-River" tech in
      set_where_contains "dam" "Reservoir" tech
    else tech in
  let tech := if decide (tech = "Gas turbine") then "OCGT" else tech in
  let tech := set_where_contains "combined cycle" "CCGT" tech in
  let tech := set_where_contains "steam turbine|critical thermal" "Steam Turbine" tech in
  let tech := set_where_contains "ocgt|open cycle" "OCGT" tech in
  let tech := Str.join ", " (Str.strip <$> np_unique (Str.split_on ", " (Str.title tech))) in
  replace_regex_dict [("Ccgt", "CCGT"); ("Ocgt", "OCGT")] tech.

(** [clean_technology]: a frame without a non-null technology is returned
    as it is; otherwise every non-null cell is rewritten. *)
Definition clean_technology {P} (df : DataFrame P) (generalize_hydros : bool)
  : DataFrame P :=
  let tech := dropna (Technology ∘ snd <$> rows df) in
  if decide (length tech = 0) then df
  else mkFrame
         ((λ lr : label * Row P,
             (lr.1, set_Technology
                      (clean_technology_cell generalize_hydros <$> Technology lr.2) lr.2))
            <$> rows df)
         (has_Duration df) (has_grouped df).

End clean_technology.

End Canonicalizer.

(** * Aggregator and driver *)

Module Pipeline.

Import Resolver.

(** ** The world outside *)

(** A file of the cache directory: group numbers by label, or content that
    [pd.read_csv] rejects. *)
Inductive cache_file : Set :=
  | Groups (g : list (label * option nat))
  | Malformed.

Inductive event : Set :=
  | LogInfo (msg : string)
  | LogWarning (msg : string)
  | CallDuke
  | ReadCsv (path : string)
  | ToCsv (path : string).

#[global] Instance event_eq_dec : EqDecision event.
Proof. solve_decision. Defined.

(** The files, what the next write to a file raises (nothing when it
    succeeds), and the calls and log messages so far, latest first. *)
Record World : Type := mkWorld {
  files : gmap string cache_file;
  write_fault : option exn;
  trace : list event
}.

Definition IO (A : Type) : Type := World → result A * World.

(** The world in which the next write raises [fault], or succeeds. *)
Definition set_fault (fault : option exn) (w : World) : World :=
  mkWorld (files w) fault (trace w).

Definition io_ret {A} (a : A) : IO A := λ w, (Ok a, w).

Definition io_bind {A B} (m : IO A) (k : A → IO B) : IO B := λ w,
  match m w with
  | (Ok a, w') => k a w'
  | (Raise e, w') => (Raise e, w')
  end.

#[global] Instance IO_ret : MRet IO := @io_ret.

#[global] Instance IO_bind : MBind IO := λ A B k m, io_bind m k.

Definition raise {A} (e : exn) : IO A := λ w, (Raise e, w).

Definition lift {A} (r : result A) : IO A := λ w, (r, w).

Definition emit (ev : event) : IO unit := λ w,
  (Ok tt, mkWorld (files w) (write_fault w) (ev :: trace w)).

(** [try: m except classes: h] *)
Definition try_except {A} (m : IO A) (classes : list exn) (h : IO A) : IO A := λ w,
  match m w with
  | (Raise e, w') => if decide (e ∈ classes) then h w' else (Raise e, w')
  | r => r
  end.

(** [m] only adds to the trace. *)
Definition grows {A} (m : IO A) : Prop :=
  ∀ w, trace w `suffix_of` trace (m w).2.

(** [pd.read_csv(path, header=None, index_col=0).reindex(index=idx)]: a
    missing file raises [IOError], rejected content and a file with a label
    twice raise [ValueError]; a label the file does not have gets a null. *)
Definition read_groups (path : string) (idx : list label) : IO (list (option nat)) :=
  _ ← emit (ReadCsv path);
  ((λ w, (match files w !! path with
          | None => Raise IOError
          | Some Malformed => Raise ValueError
          | Some (Groups g) =>
              if decide (NoDup g.*1)
              then Ok ((λ l, (list_find (λ c : label * option nat, c.1 = l) g)
                               ≫= (λ ic, ic.2.2)) <$> idx)
              else Raise ValueError
          end, w)) : IO (list (option nat))).

(** [series.to_csv(path)] *)
Definition to_csv (path : string) (series : list (label * option nat)) : IO unit :=
  _ ← emit (ToCsv path);
  ((λ w, match write_fault w with
         | Some e => (Raise e, w)
         | None => (Ok tt, mkWorld (<[path := Groups series]> (files w))
                                   (write_fault w) (trace w))
         end) : IO unit).

(** What the module takes from outside: the regular expression engine,
    [nx.algorithms.clique.find_cliques], the matcher [duke],
    [config.target_columns] by its argument [detailed_columns], and
    [utils._data_out]. *)
Record Env : Type := mkEnv {
  re : Regex;
  find_cliques : Graph → list (list label);
  duke : Units → list (label * label);
  target_columns : bool → list string;
  _data_out : string → string
}.

(** The result of [df.loc[:, columns]]: the frame and the names of the
    columns selected from it; [None] for a frame with all its columns. *)
Record Output : Type := mkOutput {
  data : Plants;
  columns : option (list string)
}.

(** ['{}'.format(dataset_name)] *)
Definition format_name (dataset_name : option string) : string :=
  default "None" dataset_name.

Section pipeline.

Variable env : Env.

(** ** The aggregator *)

(** The local function [prop_for_groups] of [aggregate_units], on the rows
    [x] of one group; [has_Duration_x] is ['Duration' in x]. *)
Definition prop_for_groups (has_Duration_x : bool) (x : list (label * Unit))
  : result Plant :=
  name ← index0 (value_counts (dropna (column Name x)));
  country ← index0 (value_counts (column Country x));
  fueltype ← index0 (value_counts (column Fueltype x));
  technology ← index0 (value_counts (column Technology x));
  set ← index0 (value_counts (column Set_ x));
  file ← index0 (value_counts (column File x));
  let duration :=
    if bool_decide ("Duration" ∈ target_columns env false) && has_Duration_x
    then fsum (zip_with (λ d c, fdiv (fmul d c) (fsum (column Capacity x)))
                        (column Duration x) (column Capacity x))
    else NaN in
  Ok (mkRow (Some (column projectID x)) (Some name) country fueltype technology set
            (fsum (fillna (Fin 0) <$> column Capacity x))
            (fmean (column lat x)) (fmean (column lon x))
            (fmin (column YearCommissioned x))
            file duration None).

(** [df.groupby('grouped').apply(prop_for_groups)]: a row for every group,
    labelled with the group number.  Without a group pandas hands back a
    frame that has no column at all. *)
Definition groupby_apply (df : Units) : result (option Plants) :=
  match groupby_grouped df with
  | [] => Ok None
  | groups =>
      rs ← mapM (λ g : nat * list (label * Unit),
                   r ← prop_for_groups (has_Duration df) g.2; Ok (g.1, r)) groups;
      Ok (Some (mkFrame rs (bool_decide ("Duration" ∈ target_columns env false)) false))
  end.

(** [df.assign(grouped=values)] *)
Definition assign_values (df : Units) (values : list (option nat)) : Units :=
  mkFrame (zip_with (λ (lr : label * Unit) v, (lr.1, set_grouped v lr.2))
                    (rows df) values)
          (has_Duration df) true.

(** [df.drop('grouped', axis=1)] *)
Definition drop_grouped (df : Units) : Units :=
  mkFrame ((λ lr : label * Unit, (lr.1, set_grouped None lr.2)) <$> rows df)
          (has_Duration df) false.

(** [df['Duration'] = df['Duration'].replace(0., np.nan)] *)
Definition replace_zero_Duration {P} (df : DataFrame P) : DataFrame P :=
  mkFrame ((λ lr : label * Row P,
              (lr.1, set_Duration (freplace (Fin 0) NaN (Duration lr.2)) lr.2))
             <$> rows df)
          (has_Duration df) (has_grouped df).

(** [df.reset_index(drop=True)] *)
Definition reset_index {P} (df : DataFrame P) : DataFrame P :=
  mkFrame (imap (λ i (lr : label * Row P), (i, lr.2)) (rows df))
          (has_Duration df) (has_grouped df).

Definition cache_path (dataset_name : option string) : string :=
  _data_out env ("aggregation_groups_" +:+ format_name dataset_name +:+ ".csv").

(** The block [if use_saved_aggregation: try: ... except (ValueError,
    IOError): ...] of [aggregate_units]. *)
Definition load_saved_groups (df : Units) (use_saved_aggregation : bool)
  (dataset_name : option string) : IO Units :=
  if use_saved_aggregation then
    try_except
      (_ ← emit (LogInfo ("Reading saved aggregation groups for dataset '"
                          +:+ format_name dataset_name +:+ "'."));
       groups ← read_groups (cache_path dataset_name) (index df);
       mret (assign_values df groups))
      [ValueError; IOError]
      (_ ← emit (LogWarning ("Non-existing saved links for dataset '"
                             +:+ format_name dataset_name
                             +:+ "', continuing by aggregating again"));
       mret (if has_grouped df then drop_grouped df else df))
  else mret df.

(** The block [if 'grouped' not in df: ...] of [aggregate_units]. *)
Definition resolve_groups (df : Units) (dataset_name : option string) : IO Units :=
  if has_grouped df then mret df
  else
    _ ← emit CallDuke;
    let duplicates := duke env df in
    df ← lift (cliques (find_cliques env) df duplicates);
    _ ← try_except
          (to_csv (cache_path dataset_name)
                  ((λ lr : label * Unit, (lr.1, grouped lr.2)) <$> rows df))
          [IndexError]
          (mret tt);
    mret df.

(** The rest of [aggregate_units], from [grouped = ...] on. *)
Definition aggregate_groups (df : Units)
  (detailed_columns return_aggregation_groups : bool)
  : result (Output * option (list (option string * option nat))) :=
  let grouped := (λ lr : label * Unit, (projectID lr.2, grouped lr.2)) <$> rows df in
  agg ← groupby_apply df;
  match agg with
  | None => Raise AttributeError
  | Some df =>
      let df := if has_Duration df then replace_zero_Duration df else df in
      df ← Normalizer.clean_powerplantname (re env) (reset_index df);
      let out := mkOutput df (Some (target_columns env detailed_columns)) in
      Ok (out, if return_aggregation_groups then Some grouped else None)
  end.

Definition aggregate_units (df : Units) (use_saved_aggregation : bool)
  (dataset_name : option string)
  (detailed_columns return_aggregation_groups : bool)
  : IO (Output * option (list (option string * option nat))) :=
  df ← load_saved_groups df use_saved_aggregation dataset_name;
  df ← resolve_groups df dataset_name;
  lift (aggregate_groups df detailed_columns return_aggregation_groups).

(** ** The driver *)

(** [df['projectID'] = df['projectID'].dropna().map(lambda x: [x])] *)
Definition wrap_projectID (df : Units) : Plants :=
  mkFrame ((λ lr : label * Unit,
              (lr.1, set_projectID ((λ p, [Some p]) <$> projectID lr.2) lr.2))
             <$> rows df)
          (has_Duration df) (has_grouped df).

(** [clean_technology(df)] on a selection of columns: [df['Technology']]
    raises [KeyError] when the column was not selected. *)
Definition clean_technology_output (out : Output) : result Output :=
  match columns out with
  | Some cols =>
      if decide ("Technology" ∈ cols)
      then Ok (mkOutput (Canonicalizer.clean_technology (re env) (data out) false)
                        (columns out))
      else Raise KeyError
  | None =>
      Ok (mkOutput (Canonicalizer.clean_technology (re env) (data out) false) None)
  end.

Definition clean_single (df : Units) (dataset_name : option string)
  (aggregate_powerplant_units use_saved_aggregation
   detailed_columns return_aggregation_groups : bool)
  : IO (Output * option (list (option string * option nat))) :=
  if aggregate_powerplant_units && use_saved_aggregation
     && bool_decide (dataset_name = None)
  then raise ValueError
  else
    let dataset_name := default "Unnamed dataset" dataset_name in
    _ ← emit (LogInfo ("Cleaning plant names in '" +:+ dataset_name +:+ "'."));
    df ← lift (Normalizer.clean_powerplantname (re env) df);
    res ← (if aggregate_powerplant_units then
             _ ← emit (LogInfo ("Aggregating blocks to entire units in '"
                                +:+ dataset_name +:+ "'."));
             aggregate_units df use_saved_aggregation (Some dataset_name)
                             detailed_columns return_aggregation_groups
           else mret (mkOutput (wrap_projectID df) None, None));
    out ← lift (clean_technology_output res.1);
    if return_aggregation_groups
    then match res.2 with
         | Some grouped => mret (out, Some grouped)
         | None => raise UnboundLocalError
         end
    else mret (out, None).

End pipeline.

(** ** Effects *)

(** What a program may do to the world: it leaves the fault and every
    file but [path] as they are, and adds events to the trace, which are
    all [allowed], of which at most [n] are calls of the matcher, and
    without a call of the matcher among them no file has changed. *)
Definition bounded_effects {A} (n : nat) (allowed : event → Prop) (path : string)
  (m : IO A) : Prop :=
  ∀ w, write_fault (m w).2 = write_fault w ∧
       (∀ p, p ≠ path → files (m w).2 !! p = files w !! p) ∧
       ∃ log, trace (m w).2 = log ++ trace w ∧
              Forall allowed log ∧
              length (filter (λ ev, ev = CallDuke) log) ≤ n ∧
              (CallDuke ∉ log → files (m w).2 = files w).

(** The events [clean_single] may add to the trace: log messages, and,
    when it aggregates, warnings, calls of the matcher and reads and writes
    of the file [path]. *)
Definition clean_single_event (aggregate : bool) (path : string) (ev : event) : Prop :=
  match ev with
  | LogInfo _ => True
  | LogWarning _ | CallDuke => aggregate = true
  | ReadCsv p | ToCsv p => aggregate = true ∧ p = path
  end.

End Pipeline.

(** Unfolds the operations of [Pipeline.IO] down to functions of the
    world. *)
Ltac io_unfold :=
  unfold Pipeline.try_except, Pipeline.read_groups, Pipeline.to_csv,
         Pipeline.emit, Pipeline.lift, Pipeline.raise, Pipeline.set_fault,
         mbind, mret, Pipeline.IO_bind, Pipeline.IO_ret,
         Pipeline.io_bind, Pipeline.io_ret; cbn.

(** * Attribute classifiers *)

(** The classifiers write into columns, and a column can be reached from
    more than one object, so this part of the embedding has a store.  A
    buffer holds the cells of a column; a series and a column of a frame
    name a buffer.  Which pandas operation shares a buffer and which makes
    a new one:
    - [df[col]] and [df.loc[:, col]] name the buffer of the column;
    - [pd.Series(s)] names the buffer of [s] ([copy=False] is the default);
    - [s.copy()], [s.dropna()], [s.append(t)] make a new buffer;
    - [df.assign(col=s)] makes a new frame with new buffers;
    - [s.loc[mask] = v], [s.replace(..., inplace=True)] and
      [s.fillna(v, inplace=True)] write into the buffer of [s]. *)
Module Classifier.

Definition loc := nat.
Definition cell := option string.

(** The store: the buffer at address [l] is [h !! l]; a new buffer goes to
    the end. *)
Abbreviation heap := (list (list cell)).

Record Series : Set := mkSeries {
  s_index : list label;
  s_data : loc
}.

(** A frame: its index and its columns, by name, in column order. *)
Record Frame : Set := mkFrame {
  f_index : list label;
  f_columns : list (string * loc)
}.

Definition M (A : Type) : Type := heap → result A * heap.

#[global] Instance M_ret : MRet M := λ A a h, (Ok a, h).

#[global] Instance M_bind : MBind M := λ A B k m h,
  match m h with
  | (Ok a, h') => k a h'
  | (Raise e, h') => (Raise e, h')
  end.

Definition raise {A} (e : exn) : M A := λ h, (Raise e, h).

Definition alloc (cells : list cell) : M loc := λ h, (Ok (length h), h ++ [cells]).

Definition read (l : loc) : M (list cell) := λ h, (Ok (default [] (h !! l)), h).

Definition write (l : loc) (cells : list cell) : M unit := λ h,
  (Ok tt, <[l := cells]> h).

Fixpoint for_each {A} (items : list A) (body : A → M unit) : M unit :=
  match items with
  | [] => mret tt
  | i :: items' => _ ← body i; for_each items' body
  end.

Fixpoint fold_each {A S} (items : list A) (body : S → A → M S) (s : S) : M S :=
  match items with
  | [] => mret s
  | i :: items' => s' ← body s i; fold_each items' body s'
  end.

Definition column_loc (df : Frame) (col : string) : option loc :=
  (list_find (λ c : string * loc, c.1 = col) (f_columns df)) ≫= (λ ic, Some ic.2.2).

(** [col in df] *)
Definition has_column (df : Frame) (col : string) : bool :=
  bool_decide (is_Some (column_loc df col)).

(** [df[col]] *)
Definition getitem (df : Frame) (col : string) : M Series :=
  match column_loc df col with
  | Some l => mret (mkSeries (f_index df) l)
  | None => raise KeyError
  end.

(** [pd.Series(s)] *)
Definition Series_of (s : Series) : M Series := mret s.

(** The cells of a series with their labels. *)
Definition items (s : Series) : M (list (label * cell)) :=
  cells ← read (s_data s); mret (zip (s_index s) cells).

(** [pd.Series(values, index)] from values *)
Definition new_series (vs : list (label * cell)) : M Series :=
  l ← alloc vs.*2; mret (mkSeries vs.*1 l).

(** [s.copy()] *)
Definition copy (s : Series) : M Series :=
  vs ← items s; new_series vs.

(** [s.dropna()] *)
Definition dropna_series (s : Series) : M Series :=
  vs ← items s;
  new_series (filter (λ lc : label * cell, lc.2 ≠ None) vs).

(** The text cells of [s.dropna()]. *)
Definition texts (vs : list (label * cell)) : list (label * string) :=
  omap (λ lc : label * cell, (λ t, (lc.1, t)) <$> lc.2) vs.

(** [t.reindex(idx, fill_value=fill)], for an index without a label twice. *)
Definition reindex {A} (fill : A) (t : list (label * A)) (idx : list label) : list A :=
  (λ l, default fill ((list_find (λ c : label * A, c.1 = l) t) ≫= (λ ic, Some ic.2.2)))
    <$> idx.

(** [s.loc[mask] = v] *)
Definition loc_set_mask (s : Series) (mask : list bool) (v : string) : M unit :=
  cells ← read (s_data s);
  write (s_data s) (zip_with (λ (c : cell) (b : bool), if b then Some v else c) cells mask).

(** [s.replace({a: b}, inplace=True)] *)
Definition replace_inplace (s : Series) (a b : string) : M unit :=
  cells ← read (s_data s);
  write (s_data s) ((λ c : cell, if decide (c = Some a) then Some b else c) <$> cells).

(** [s.fillna(v, inplace=True)] *)
Definition fillna_inplace (s : Series) (v : string) : M unit :=
  cells ← read (s_data s);
  write (s_data s) ((λ c : cell, if decide (c = None) then Some v else c) <$> cells).

(** [df.copy()] column by column. *)
Fixpoint copy_columns (cols : list (string * loc)) : M (list (string * loc)) :=
  match cols with
  | [] => mret []
  | (name, l) :: cols' =>
      cells ← read l;
      l' ← alloc cells;
      rest ← copy_columns cols';
      mret ((name, l') :: rest)
  end.

Definition set_column (cols : list (string * loc)) (col : string) (l : loc)
  : list (string * loc) :=
  if bool_decide (col ∈ cols.*1)
  then (λ c : string * loc, if decide (c.1 = col) then (col, l) else c) <$> cols
  else cols ++ [(col, l)].

(** [df.assign(col=s)]: a copy of the frame, with the column [col] set to
    the cells of [s] by label, null where [s] has no cell. *)
Definition assign (df : Frame) (col : string) (s : Series) : M Frame :=
  cols ← copy_columns (f_columns df);
  vs ← items s;
  l ← alloc (reindex None vs (f_index df));
  mret (mkFrame (f_index df) (set_column cols col l)).

Section classifiers.

Variable re : Regex.

(** [config.target_technologies()] *)
Variable target_technologies : list string.

(** [df[i].dropna().str.contains(pattern)] with the flag [case] given as
    [ignore_case], put on the index [idx], absent labels false. *)
Definition contains_mask (df : Frame) (i : string) (ignore_case : bool)
  (pattern : string) (idx : list label) : M (list bool) :=
  col ← getitem df i;
  d ← dropna_series col;
  vs ← items d;
  mret (reindex false
          ((λ lt : label * string, (lt.1, re_search re ignore_case pattern lt.2))
             <$> texts vs)
          idx).

Definition gather_fueltype_info (df : Frame) (search_col : list string) : M Frame :=
  s ← getitem df "Fueltype";
  fueltype ← Series_of s;
  _ ← for_each search_col (λ i,
        found_b ← contains_mask df i false "(?i)lignite|brown" (s_index fueltype);
        loc_set_mask fueltype found_b "Lignite");
  _ ← replace_inplace fueltype "Coal" "Hard Coal";
  assign df "Fueltype" fueltype.

Definition technology_pattern : string :=
  Str.join "|" ((λ x, "(?i)" +:+ x) <$> target_technologies).

(** One turn of the loop of [gather_technology_info]. *)
Definition gather_technology_step (df : Frame) (technology : Series) (i : string)
  : M Series :=
  col ← getitem df i;
  d ← dropna_series col;
  vs ← items d;
  let found : list (label * string) :=
    omap (λ lt : label * string,
            match re_findall re technology_pattern lt.2 with
            | [] => None
            | ms => Some (lt.1, Str.join ", " ms)
            end) (texts vs) in
  tvs ← items technology;
  let exists_i := filter (λ l, l ∈ found.*1) (s_index technology) in
  _ ← (if decide (0 < length exists_i) then
         write (s_data technology)
               ((λ lc : label * cell,
                   match list_find (λ f : label * string, f.1 = lc.1) found with
                   | Some (_, (_, f)) => (λ t, t +:+ ", " +:+ f) <$> lc.2
                   | None => lc.2
                   end) <$> tvs)
       else mret tt);
  tvs ← items technology;
  let new := filter (λ f : label * string, f.1 ∉ s_index technology) found in
  new_series (tvs ++ ((λ f : label * string, (f.1, Some f.2)) <$> new)).

Definition gather_technology_info (df : Frame) (search_col : list string) : M Frame :=
  technology ← (if has_column df "Technology"
                then s ← getitem df "Technology"; dropna_series s
                else new_series []);
  technology ← fold_each search_col (gather_technology_step df) technology;
  assign df "Technology" technology.

Definition chp_pattern : string :=
  Str.join "|" ["heizkraftwerk"; "hkw"; "chp"; "bhkw"; "cogeneration";
                "power and heat"; "heat and power"].

Definition store_pattern : string := Str.join "|" ["battery"; "storage"].

Definition gather_set_info (df : Frame) (search_col : list string) : M Frame :=
  Set_ ← (if has_column df "Set"
         then s ← getitem df "Set"; copy s
         else new_series ((λ l, (l, None)) <$> f_index df));
  _ ← for_each search_col (λ i,
        isCHP_b ← contains_mask df i true chp_pattern (f_index df);
        loc_set_mask Set_ isCHP_b "CHP");
  _ ← for_each search_col (λ i,
        isStore_b ← contains_mask df i true store_pattern (f_index df);
        loc_set_mask Set_ isStore_b "Store");
  df ← assign df "Set" Set_;
  s ← getitem df "Set";
  _ ← fillna_inplace s "PP";
  mret df.

End classifiers.

(** [m], run in a store that extends [h0], leaves the buffers of [h0] as
    they are, and what it returns satisfies [post]. *)
Definition keeps {A} (h0 : heap) (m : M A) (post : A → Prop) : Prop :=
  ∀ h, h0 `prefix_of` h →
       h0 `prefix_of` (m h).2 ∧ ∀ a, (m h).1 = Ok a → post a.

(** The buffer of the series is not one of [h0]. *)
Definition new_in (h0 : heap) (s : Series) : Prop := length h0 ≤ s_data s.

(** The cells of the column [col] of [df] in the store [h]. *)
Definition column_cells (h : heap) (df : Frame) (col : string) : option (list cell) :=
  column_loc df col ≫= (λ l, h !! l).

End Classifier.

(** * Sample record sets *)

(** A unit of a source frame: identifier, name and capacity given, the
    other cells null. *)
Definition unit_row (pid name : string) (cap : Q) : Unit :=
  mkRow (Some pid) (Some name) (Some "DE") None None None
        (Fin cap) NaN NaN NaN (Some "src") NaN None.

(** A frame with the labels 0, 1, ... ([reset_index]). *)
Definition frame_of (rs : list Unit) : Units :=
  mkFrame (imap (λ i r, (i, r)) rs) false false.

Definition four_units : Units :=
  frame_of [unit_row "a" "Alpha" 10; unit_row "b" "Alpha" 20;
            unit_row "c" "Gamma" 30; unit_row "d" "Delta" 40].

(** 0 and 1 name each other, 2 names 3 only. *)
Definition four_units_edges : list (label * label) := [(0, 1); (1, 0); (2, 3)].

Definition three_units : Units :=
  frame_of [unit_row "a" "Alpha" 10; unit_row "b" "Beta" 20;
            unit_row "c" "Gamma" 30].

(** A chain: 0 and 1 name each other, and so do 1 and 2. *)
Definition chain_edges : list (label * label) := [(0, 1); (1, 0); (1, 2); (2, 1)].

(** A unit with a storage duration. *)
Definition storage_row (pid name : string) (cap dur : Q) : Unit :=
  mkRow (Some pid) (Some name) (Some "DE") None None None
        (Fin cap) NaN NaN NaN (Some "src") (Fin dur) None.

(** Target columns with the optional [Duration]. *)
Definition columns_with_Duration (detailed_columns : bool) : list string :=
  ["Name"; "Fueltype"; "Technology"; "Set"; "Country"; "Capacity"; "Duration";
   "YearCommissioned"; "lat"; "lon"; "File"; "projectID"].

Definition columns_without_Duration (detailed_columns : bool) : list string :=
  ["Name"; "Fueltype"; "Technology"; "Set"; "Country"; "Capacity";
   "YearCommissioned"; "lat"; "lon"; "File"; "projectID"].

(** An environment: the reference engine and enumeration, a matcher that
    answers [dd] whatever it is asked. *)
Definition sample_env (dd : list (label * label))
  (target_columns : bool → list string) : Pipeline.Env :=
  Pipeline.mkEnv RefRegex.engine Resolver.find_cliques_ref (λ _, dd)
                 target_columns (λ f, "data/out/" +:+ f).

(** The group of the members with (Capacity, Duration) = (100, 2), (300, 6). *)
Definition duration_group : list (label * Unit) :=
  [(0, storage_row "a" "Alpha" 100 2); (1, storage_row "b" "Alpha" 300 6)].

Definition empty_world : Pipeline.World := Pipeline.mkWorld ∅ None [].

(** A world in which the cache directory cannot be written. *)
Definition readonly_world : Pipeline.World := Pipeline.mkWorld ∅ (Some IOError) [].

(** Two members commissioned in 1990 and 1975, a third with no year. *)
Definition year_group : list (label * Unit) :=
  [(0, mkRow (Some "a") (Some "Alpha") (Some "DE") None None None
             (Fin 10) NaN NaN (Fin 1990) (Some "src") NaN (Some 0));
   (1, mkRow (Some "b") (Some "Alpha") (Some "DE") None None None
             (Fin 20) NaN NaN (Fin 1975) (Some "src") NaN (Some 0));
   (2, mkRow (Some "c") (Some "Alpha") (Some "DE") None None None
             (Fin 30) NaN NaN NaN (Some "src") NaN (Some 0))].

(** Four units of which the first and the third are in group 1, the second
    is in group 0 and the last is in no group. *)
Definition grouped_units : Units :=
  Pipeline.assign_values four_units [Some 1; Some 0; Some 1; None].

(** Three members with Capacity 100, null and 50. *)
Definition capacity_group : list (label * Unit) :=
  [(0, unit_row "a" "Alpha" 100);
   (1, mkRow (Some "b") (Some "Alpha") (Some "DE") None None None
             NaN NaN NaN NaN (Some "src") NaN None);
   (2, unit_row "c" "Alpha" 50)].

(** Three members, two of them without a name and without a country. *)
Definition mostly_unnamed_group : list (label * Unit) :=
  [(0, mkRow (Some "a") None None None None None
             (Fin 10) NaN NaN NaN (Some "src") NaN None);
   (1, mkRow (Some "b") None None None None None
             (Fin 20) NaN NaN NaN (Some "src") NaN None);
   (2, mkRow (Some "c") (Some "Alpha") (Some "DE") None None None
             (Fin 30) NaN NaN NaN (Some "src") NaN None)].

(** Three units, the second without a name. *)
(** A batch in which the word "Werk" occurs twenty times and the word
    "Nord" once. *)
Definition werk_tokens : list string := replicate 20 "Werk" ++ ["Nord"].


(** Twenty units named "Alpha ** Nord": the word "**" is common, and is no
    regular expression. *)
Definition starred_units : Units :=
  frame_of (replicate 20 (unit_row "a" "Alpha ** Nord" 10)).

(** Three named units; the name of the last is made of filler words only. *)
Definition named_units : Units :=
  frame_of [unit_row "a" "Kraftwerk Muellheim 1" 10;
            unit_row "b" "gas plant Alpha-3" 20;
            unit_row "c" "Power Station II" 30].

(** Two units burning coal, the first with a tell-tale name; the store
    holds the columns Name, Fueltype and Technology of the frame. *)
Definition coal_store : Classifier.heap :=
  [[Some "Brown coal plant"; Some "Hard unit"];
   [Some "Coal"; Some "Coal"];
   [None; None]].

Definition coal_frame : Classifier.Frame :=
  Classifier.mkFrame [0; 1] [("Name", 0); ("Fueltype", 1); ("Technology", 2)].

(** Four units: a combined heat and power plant, a battery that was
    classified as CHP before, and two that say nothing, one of them
    classified before; the columns are Name, Fueltype, Technology and Set. *)
Definition set_store : Classifier.heap :=
  [[Some "Heizkraftwerk Nord"; Some "Battery Hill"; Some "Alpha"; Some "Beta"];
   [Some "Coal"; None; Some "Wind"; None];
   [None; None; Some "Onshore"; None];
   [None; Some "CHP"; Some "CHP"; None]].

Definition set_frame : Classifier.Frame :=
  Classifier.mkFrame [0; 1; 2; 3]
    [("Name", 0); ("Fueltype", 1); ("Technology", 2); ("Set", 3)].

Definition sample_technologies : list string :=
  ["CCGT"; "OCGT"; "Steam Turbine"; "Onshore"; "Run-Of-River"].

(** * Properties of the duplicate-group resolver *)

Section resolver_facts.
Import Resolver.

Lemma elem_of_add_node (x n : label) (ns : list label) :
  x ∈ add_node n ns ↔ x ∈ ns ∨ x = n.
Proof.
  unfold add_node. case_decide.
  - split; [by left | intros [?| ->]; done].
  - rewrite elem_of_app, list_elem_of_singleton. done.
Qed.

Lemma elem_of_nodes_add_nodes_from (x : label) (ns : list label) (G : DiGraph) :
  x ∈ nodes (add_nodes_from G ns) ↔ x ∈ nodes G ∨ x ∈ ns.
Proof.
  unfold add_nodes_from. simpl. generalize (nodes G) as acc.
  induction ns as [|n ns IH]; intros acc; simpl.
  - split; [by left | intros [?|H]; [done | by apply elem_of_nil in H]].
  - rewrite IH, elem_of_add_node, elem_of_cons. naive_solver.
Qed.

Lemma edges_add_nodes_from (ns : list label) (G : DiGraph) :
  edges (add_nodes_from G ns) = edges G.
Proof. done. Qed.

Lemma elem_of_edges_add_edges_from (e : label * label) es (G : DiGraph) :
  e ∈ edges (add_edges_from G es) ↔ e ∈ edges G ∨ e ∈ es.
Proof.
  unfold add_edges_from. revert G.
  induction es as [|e' es IH]; intros G; simpl.
  - split; [by left | intros [?|H]; [done | by apply elem_of_nil in H]].
  - rewrite IH, elem_of_cons. unfold add_edge at 1. simpl.
    case_decide.
    + naive_solver.
    + rewrite elem_of_app, list_elem_of_singleton. naive_solver.
Qed.

Lemma elem_of_nodes_add_edges_from (x : label) es (G : DiGraph) :
  x ∈ nodes (add_edges_from G es) ↔
  x ∈ nodes G ∨ ∃ e, e ∈ es ∧ (x = e.1 ∨ x = e.2).
Proof.
  unfold add_edges_from. revert G.
  induction es as [|e' es IH]; intros G; simpl.
  - split; [by left | intros [?|(e & H & _)]; [done | by apply elem_of_nil in H]].
  - rewrite IH. unfold add_edge at 1. simpl.
    rewrite !elem_of_add_node. split.
    + intros [[[?| ->]| ->]|(e & He & Hx)].
      * by left.
      * right. exists e'. split; [apply elem_of_cons; by left | by left].
      * right. exists e'. split; [apply elem_of_cons; by left | by right].
      * right. exists e. split; [apply elem_of_cons; by right | done].
    + intros [?|(e & He & Hx)]; [by left; left; left |].
      apply elem_of_cons in He as [-> | He].
      * destruct Hx as [-> | ->]; [left; left; by right | left; by right].
      * right. by exists e.
Qed.

(** The match graph has a node for every record and for every end of a
    supplied edge, and an edge exactly for the reciprocal pairs. *)
Lemma elem_of_gnodes_match_graph (df : Units) dd (x : label) :
  x ∈ gnodes (match_graph df dd) ↔
  x ∈ index df ∨ ∃ e, e ∈ dd ∧ (x = e.1 ∨ x = e.2).
Proof.
  unfold match_graph, to_undirected_reciprocal. simpl.
  rewrite elem_of_nodes_add_edges_from, elem_of_nodes_add_nodes_from.
  simpl. rewrite elem_of_nil. naive_solver.
Qed.

Lemma elem_of_gedges_match_graph (df : Units) dd (u v : label) :
  (u, v) ∈ gedges (match_graph df dd) ↔ (u, v) ∈ dd ∧ (v, u) ∈ dd.
Proof.
  unfold match_graph, to_undirected_reciprocal. simpl.
  rewrite list_elem_of_filter. simpl.
  rewrite !elem_of_edges_add_edges_from, !edges_add_nodes_from. simpl.
  rewrite !elem_of_nil. naive_solver.
Qed.

Lemma adj_match_graph (df : Units) dd (u v : label) :
  adj (match_graph df dd) u v ↔ u ≠ v ∧ (u, v) ∈ dd ∧ (v, u) ∈ dd.
Proof.
  unfold adj. rewrite !elem_of_gedges_match_graph. naive_solver.
Qed.

Lemma adj_sym (H : Graph) (u v : label) : adj H u v → adj H v u.
Proof. unfold adj. naive_solver. Qed.

(** ** Cliques *)

Lemma is_clique_alt (H : Graph) (c : list label) :
  is_clique H c ↔
  NoDup c ∧ (∀ u, u ∈ c → u ∈ gnodes H) ∧
  (∀ u v, u ∈ c → v ∈ c → u ≠ v → adj H u v).
Proof.
  unfold is_clique. rewrite !Forall_forall.
  setoid_rewrite Forall_forall.
  split; intros (Hnd & Hn & Ha); (split; [done | split; [done |]]).
  - intros u v Hu Hv Hne. destruct (Ha u Hu v Hv); done.
  - intros u Hu v Hv. destruct (decide (u = v)); [by left | right; by apply Ha].
Qed.

Lemma is_maximal_clique_alt (H : Graph) (c : list label) :
  is_maximal_clique H c ↔
  is_clique H c ∧ c ≠ [] ∧
  (∀ w, w ∈ gnodes H → w ∉ c → ∃ u, u ∈ c ∧ ¬ adj H u w).
Proof.
  unfold is_maximal_clique. rewrite Forall_forall.
  setoid_rewrite Exists_exists.
  split; intros (Hc & Hne & Hm); (split; [done | split; [done |]]).
  - intros w Hw Hnot. destruct (Hm w Hw); done.
  - intros w Hw. destruct (decide (w ∈ c)); [by left | right; by apply Hm].
Qed.

Lemma is_clique_perm (H : Graph) (c c' : list label) :
  c ≡ₚ c' → is_clique H c → is_clique H c'.
Proof.
  intros Hp. rewrite !is_clique_alt. intros (Hnd & Hn & Ha).
  split; [by rewrite <- Hp |]. split.
  - intros u Hu. apply Hn. by rewrite Hp.
  - intros u v Hu Hv. apply Ha; by rewrite Hp.
Qed.

Lemma is_maximal_clique_perm (H : Graph) (c c' : list label) :
  c ≡ₚ c' → is_maximal_clique H c → is_maximal_clique H c'.
Proof.
  intros Hp. rewrite !is_maximal_clique_alt. intros (Hc & Hne & Hm).
  split; [by eapply is_clique_perm |]. split.
  - intros ->. by apply Permutation_nil_r in Hp.
  - intros w Hw Hnot. destruct (Hm w Hw) as (u & Hu & Hna).
    + by rewrite Hp.
    + exists u. split; [by rewrite <- Hp | done].
Qed.

(** Two members of a clique of the match graph are joined by a reciprocal
    pair of edges. *)
Lemma clique_members_adjacent (H : Graph) (c : list label) (u v : label) :
  is_clique H c → u ∈ c → v ∈ c → u ≠ v → adj H u v.
Proof. rewrite is_clique_alt. intros (_ & _ & Ha). apply Ha. Qed.

Lemma extend_clique_spec (H : Graph) (ws c : list label) :
  is_clique H c → (∀ w, w ∈ ws → w ∈ gnodes H) →
  is_clique H (extend_clique H c ws) ∧
  (∀ u, u ∈ c → u ∈ extend_clique H c ws) ∧
  (∀ w, w ∈ ws → w ∉ extend_clique H c ws →
        ∃ u, u ∈ extend_clique H c ws ∧ ¬ adj H u w).
Proof.
  revert c. induction ws as [|w ws IH]; intros c Hc Hws; simpl.
  - split; [done |]. split; [done |]. intros w Hw. by apply elem_of_nil in Hw.
  - assert (∀ w', w' ∈ ws → w' ∈ gnodes H) as Hws'.
    { intros w' Hw'. apply Hws. by apply elem_of_cons; right. }
    case_decide as Hadd.
    + destruct Hadd as [Hnot Hall]. rewrite Forall_forall in Hall.
      assert (is_clique H (w :: c)) as Hc'.
      { apply is_clique_alt in Hc as (Hnd & Hn & Ha). apply is_clique_alt.
        split; [by constructor |]. split.
        - intros u [-> | Hu]%elem_of_cons; [apply Hws; by left | by apply Hn].
        - intros u v [-> | Hu]%elem_of_cons [-> | Hv]%elem_of_cons Hne.
          + done.
          + apply adj_sym. by apply Hall.
          + by apply Hall.
          + by apply Ha. }
      destruct (IH (w :: c) Hc' Hws') as (H1 & H2 & H3).
      split; [done |]. split.
      * intros u Hu. apply H2. by right.
      * intros w' [-> | Hw']%elem_of_cons Hnotin.
        -- exfalso. apply Hnotin, H2. by left.
        -- by apply H3.
    + destruct (IH c Hc Hws') as (H1 & H2 & H3).
      split; [done |]. split; [done |].
      intros w' [-> | Hw']%elem_of_cons Hnotin; [| by apply H3].
      apply not_and_l in Hadd as [Hin | Hex].
      * exfalso. apply Hnotin, H2. by apply dec_stable.
      * apply not_Forall_Exists in Hex; [| apply _].
        apply Exists_exists in Hex as (u & Hu & Hna).
        exists u. split; [by apply H2 | done].
Qed.

(** Every node of a graph lies in a maximal clique. *)
Lemma node_in_maximal_clique (H : Graph) (v : label) :
  v ∈ gnodes H → ∃ c, is_maximal_clique H c ∧ v ∈ c.
Proof.
  intros Hv.
  assert (is_clique H [v]) as Hc.
  { apply is_clique_alt. split; [apply NoDup_singleton |]. split.
    - by intros u ->%list_elem_of_singleton.
    - intros u w ->%list_elem_of_singleton ->%list_elem_of_singleton. done. }
  destruct (extend_clique_spec H (gnodes H) [v] Hc) as (H1 & H2 & H3); [done |].
  assert (v ∈ extend_clique H [v] (gnodes H)) as Hin
    by (apply H2; by apply list_elem_of_singleton).
  exists (extend_clique H [v] (gnodes H)). split; [| done].
  apply is_maximal_clique_alt. split; [done |]. split.
  - intros Heq. rewrite Heq in Hin. by apply elem_of_nil in Hin.
  - intros w Hw Hnot. by apply H3.
Qed.

(** An enumeration of the maximal cliques reaches every node. *)
Lemma enumeration_covers (H : Graph) (cs : list (list label)) (v : label) :
  enumerates_maximal_cliques H cs → v ∈ gnodes H →
  ∃ c, c ∈ cs ∧ v ∈ c.
Proof.
  intros [_ Hall] Hv.
  destruct (node_in_maximal_clique H v Hv) as (c & Hc & Hin).
  apply Hall, Exists_exists in Hc as (c' & Hc' & Hp).
  exists c'. split; [done | by rewrite Hp].
Qed.

Lemma elem_of_subseqs {A} (l' l : list A) :
  l' ∈ subseqs l ↔ l' `sublist_of` l.
Proof.
  revert l'. induction l as [|x l IH]; intros l'; simpl.
  - rewrite list_elem_of_singleton. split; [by intros -> | apply sublist_nil_r].
  - rewrite elem_of_app, list_elem_of_fmap. split.
    + intros [Hl | (l'' & -> & Hl)].
      * apply sublist_cons. by apply IH.
      * apply sublist_skip. by apply IH.
    + intros Hs. apply sublist_cons_r in Hs as [Hs | (l'' & -> & Hs)].
      * left. by apply IH.
      * right. exists l''. split; [done | by apply IH].
Qed.

(** The reference enumeration keeps the promise of [find_cliques], on
    every graph. *)
Lemma find_cliques_ref_spec (H : Graph) :
  enumerates_maximal_cliques H (find_cliques_ref H).
Proof.
  unfold enumerates_maximal_cliques, find_cliques_ref. split.
  - apply Forall_forall. intros c Hc. by apply list_elem_of_filter in Hc as [? _].
  - intros c Hc. apply Exists_exists.
    set (c' := filter (λ x, x ∈ c) (remove_dups (gnodes H))).
    assert (c' ≡ₚ c) as Hp.
    { apply NoDup_Permutation.
      - apply NoDup_filter, NoDup_remove_dups.
      - destruct Hc as [Hc _]. by apply is_clique_alt in Hc as [? _].
      - intros x. unfold c'. rewrite list_elem_of_filter, elem_of_remove_dups.
        split; [by intros [? _] |]. intros Hx. split; [done |].
        destruct Hc as [Hc _]. apply is_clique_alt in Hc as (_ & Hn & _).
        by apply Hn. }
    exists c'. split; [| done].
    apply list_elem_of_filter. split.
    + eapply is_maximal_clique_perm; [symmetry; exact Hp | done].
    + apply elem_of_subseqs. apply sublist_filter.
Qed.

(** ** The assignment loop *)

Lemma loc_set_Ok (grouped grouped' : Series) (inds : list label) (i : nat) :
  loc_set grouped inds i = Ok grouped' ↔
  Forall (λ l, l ∈ grouped.*1) inds ∧
  grouped' = (λ c : label * option nat,
                if decide (c.1 ∈ inds) then (c.1, Some i) else c) <$> grouped.
Proof.
  unfold loc_set. case_decide; split.
  - intros [= <-]. done.
  - by intros [_ ->].
  - done.
  - by intros [? _].
Qed.

Lemma loc_set_labels (grouped grouped' : Series) (inds : list label) (i : nat) :
  loc_set grouped inds i = Ok grouped' → grouped'.*1 = grouped.*1.
Proof.
  intros [_ ->]%loc_set_Ok. rewrite <- list_fmap_compose.
  apply list_fmap_ext. intros _ c _. simpl. by case_decide.
Qed.

Lemma assign_cliques_Ok (cs : list (list label)) (i : nat) (grouped grouped' : Series) :
  assign_cliques i cs grouped = Ok grouped' ↔
  Forall (λ c, Forall (λ l, l ∈ grouped.*1) c) cs ∧
  grouped' = final_cell i cs <$> grouped.
Proof.
  revert i grouped. induction cs as [|c cs IH]; intros i grouped; simpl.
  - assert (final_cell i [] <$> grouped = grouped) as Hid.
    { rewrite <- (list_fmap_id grouped) at 2.
      apply list_fmap_ext. by intros _ [] _. }
    rewrite Hid. split.
    + intros [= <-]. split; [constructor | done].
    + by intros [_ ->].
  - destruct (loc_set grouped c i) as [g1|e] eqn:Hloc; simpl.
    + pose proof (loc_set_labels _ _ _ _ Hloc) as Hlab.
      apply loc_set_Ok in Hloc as [Hin ->].
      rewrite IH, Hlab. rewrite <- list_fmap_compose.
      assert ((final_cell (S i) cs ∘ (λ c0 : label * option nat,
                 if decide (c0.1 ∈ c) then (c0.1, Some i) else c0)) <$> grouped
              = final_cell i (c :: cs) <$> grouped) as ->.
      { apply list_fmap_ext. intros _ [l v] _. unfold final_cell. simpl.
        case_decide; simpl; by destruct (last_clique_from (S i) cs l). }
      rewrite Forall_cons. naive_solver.
    + split; [done |]. intros [Hall _]. apply Forall_cons in Hall as [Hc _].
      unfold loc_set in Hloc. by case_decide.
Qed.

(** The frame [cliques] returns, when it returns: the rows of [df], each
    with the number of the last clique that has its label. *)
Lemma cliques_Ok fc (df df' : Units) (dd : list (label * label)) :
  cliques fc df dd = Ok df' ↔
  Forall (λ c, Forall (λ l, l ∈ index df) c) (fc (match_graph df dd)) ∧
  df' = mkFrame
          ((λ lr : label * Unit,
              (lr.1, set_grouped (last_clique_index (fc (match_graph df dd)) lr.1) lr.2))
             <$> rows df)
          (has_Duration df) true.
Proof.
  unfold cliques. simpl.
  set (cs := fc (match_graph df dd)).
  set (g0 := (λ l : label, (l, None)) <$> index df).
  assert (g0.*1 = index df) as Hg0.
  { unfold g0. rewrite <- list_fmap_compose.
    rewrite <- (list_fmap_id (index df)) at 2. by apply list_fmap_ext. }
  assert (∀ g, g = final_cell 0 cs <$> g0 →
     assign_grouped df g = mkFrame
          ((λ lr : label * Unit,
              (lr.1, set_grouped (last_clique_index cs lr.1) lr.2)) <$> rows df)
          (has_Duration df) true) as Hassign.
  { intros g ->. unfold assign_grouped. f_equal.
    unfold g0, index. rewrite <- !list_fmap_compose.
    generalize (rows df) as rs. induction rs as [|[l r] rs IH]; [done |].
    simpl. f_equal; [| done].
    unfold last_clique_index. by destruct (last_clique_from 0 cs l). }
  destruct (assign_cliques 0 cs g0) as [g|e] eqn:Hloop; simpl.
  - apply assign_cliques_Ok in Hloop as [Hall Hg]. rewrite Hg0 in Hall.
    rewrite (Hassign g Hg). split; [intros [= <-]; done | by intros [_ ->]].
  - split; [done |]. intros [Hall _].
    assert (is_Some' : ∃ g, assign_cliques 0 cs g0 = Ok g).
    { eexists. apply assign_cliques_Ok. rewrite Hg0. done. }
    destruct is_Some' as [g Hg]. congruence.
Qed.

Lemma cliques_contract_Ok fc (df : Units) (dd : list (label * label)) :
  Forall (λ e : label * label, e.1 ∈ index df ∧ e.2 ∈ index df) dd →
  Forall (is_maximal_clique (match_graph df dd)) (fc (match_graph df dd)) →
  Forall (λ c, Forall (λ l, l ∈ index df) c) (fc (match_graph df dd)).
Proof.
  rewrite !Forall_forall. intros Hdd Hcs c Hc. apply Forall_forall. intros l Hl.
  destruct (Hcs c Hc) as [Hclique _].
  apply is_clique_alt in Hclique as (_ & Hn & _).
  apply Hn, elem_of_gnodes_match_graph in Hl as [? | (e & He & Hx)]; [done |].
  destruct (Hdd e He). by destruct Hx as [-> | ->].
Qed.

Lemma group_of_cliques fc (df df' : Units) dd (l : label) :
  cliques fc df dd = Ok df' → l ∈ index df →
  group_of df' l = last_clique_index (fc (match_graph df dd)) l.
Proof.
  intros [_ ->]%cliques_Ok Hl. unfold group_of. simpl.
  unfold index in Hl. revert Hl.
  generalize (rows df) as rs. induction rs as [|[l' r] rs IH]; simpl.
  - by intros ?%elem_of_nil.
  - intros Hl. case_decide as Heq; simpl in *.
    + by subst.
    + apply elem_of_cons in Hl as [-> | Hl]; [done |].
      specialize (IH Hl).
      destruct (list_find _ _) as [[k p]|]; simpl in *; done.
Qed.

Lemma last_clique_from_None (cs : list (list label)) (i : nat) (l : label) :
  last_clique_from i cs l = None ↔ Forall (λ c, l ∉ c) cs.
Proof.
  revert i. induction cs as [|c cs IH]; intros i; simpl.
  - split; [constructor | done].
  - rewrite Forall_cons, <- (IH (S i)).
    destruct (last_clique_from (S i) cs l); [naive_solver |].
    case_decide; naive_solver.
Qed.

Lemma last_clique_from_Some (cs : list (list label)) (i j : nat) (l : label) :
  last_clique_from i cs l = Some j ↔
  i ≤ j ∧ (∃ c, cs !! (j - i) = Some c ∧ l ∈ c) ∧
  (∀ k c, j - i < k → cs !! k = Some c → l ∉ c).
Proof.
  revert i j. induction cs as [|c cs IH]; intros i j; simpl.
  - split; [done |]. by intros (_ & (c & Hc & _) & _).
  - destruct (last_clique_from (S i) cs l) as [j'|] eqn:Hrec.
    + apply IH in Hrec as (Hle & (c' & Hc' & Hin) & Hlast). split.
      * intros [= <-]. split; [lia |]. split.
        -- exists c'. replace (j' - i) with (S (j' - S i)) by lia. done.
        -- intros k c0 Hk Hc0. destruct k as [|k]; [lia |]. simpl in Hc0.
           eapply Hlast; [| done]. lia.
      * intros (Hij & (c0 & Hc0 & Hin0) & Hlast0).
        f_equal. destruct (decide (j' = j)) as [| Hne]; [done | exfalso].
        destruct (decide (j' < j)).
        -- apply (Hlast (j - S i) c0); [lia | | done].
           replace (j - i) with (S (j - S i)) in Hc0 by lia. done.
        -- apply (Hlast0 (S (j' - S i)) c'); [lia | done | done].
    + apply last_clique_from_None in Hrec. rewrite Forall_forall in Hrec.
      case_decide as Hin; split.
      * intros [= <-]. split; [lia |]. split.
        -- exists c. by rewrite Nat.sub_diag.
        -- intros k c0 Hk Hc0. destruct k as [|k]; [lia |]. simpl in Hc0.
           apply Hrec. by eapply list_elem_of_lookup_2.
      * intros (Hij & (c0 & Hc0 & Hin0) & _). f_equal.
        destruct (j - i) as [|n] eqn:Hn; [lia |]. simpl in Hc0.
        exfalso. apply (Hrec c0); [by eapply list_elem_of_lookup_2 | done].
      * done.
      * intros (Hij & (c0 & Hc0 & Hin0) & _). exfalso.
        destruct (j - i) as [|n] eqn:Hn; simpl in Hc0.
        -- by injection Hc0 as ->.
        -- apply (Hrec c0); [by eapply list_elem_of_lookup_2 | done].
Qed.

(** ** Grouping *)

Lemma groups_concat_perm {A} (k : A → option nat) (ks : list nat) (l : list A) :
  NoDup ks → (∀ x g, x ∈ l → k x = Some g → g ∈ ks) →
  mjoin ((λ g, filter (λ x, k x = Some g) l) <$> ks)
  ≡ₚ filter (λ x, is_Some (k x)) l.
Proof.
  revert l. induction ks as [|g ks IH]; intros l Hnd Hin.
  - simpl. induction l as [|x l IHl]; [done |]. rewrite filter_cons.
    case_decide as Hx.
    + destruct Hx as [g Hg]. exfalso.
      eapply elem_of_nil, (Hin x g); [by left | done].
    + apply IHl. intros y g Hy. apply Hin. by right.
  - apply NoDup_cons in Hnd as [Hg Hnd].
    rewrite fmap_cons. change (mjoin (?x :: ?xs)) with (x ++ mjoin xs).
    set (l' := filter (λ x, k x ≠ Some g) l).
    assert ((λ g', filter (λ x, k x = Some g') l) <$> ks
            = (λ g', filter (λ x, k x = Some g') l') <$> ks) as ->.
    { apply list_fmap_ext. intros _ g' Hg'%list_elem_of_lookup_2.
      unfold l'. rewrite list_filter_filter_l; [done |].
      intros x Hx Heq. rewrite Hx in Heq. injection Heq as ->. done. }
    rewrite (IH l' Hnd).
    + unfold l'. rewrite list_filter_filter.
      rewrite <- (filter_app_complement (λ x, k x = Some g)
                    (filter (λ x, is_Some (k x)) l)).
      rewrite !list_filter_filter. f_equiv.
      * apply reflexive_eq. apply list_filter_iff. intros x. split; [| naive_solver].
        intros Hx. rewrite Hx. split; [done | by eexists].
      * apply reflexive_eq. apply list_filter_iff. naive_solver.
    + intros x g' [Hne Hx]%list_elem_of_filter Hk.
      pose proof (Hin x g' Hx Hk) as [-> | ?]%elem_of_cons; [| done].
      by destruct Hne.
Qed.

(** The groups of a frame, put end to end, are its rows that have a
    group number. *)
Lemma groupby_concat (df : Units) :
  mjoin (snd <$> groupby_grouped df)
  ≡ₚ filter (λ lr : label * Unit, is_Some (grouped lr.2)) (rows df).
Proof.
  unfold groupby_grouped, group_keys, group_rows.
  rewrite <- list_fmap_compose. rewrite merge_sort_Permutation.
  apply (groups_concat_perm (λ lr : label * Unit, grouped lr.2)).
  - apply NoDup_remove_dups.
  - intros lr g Hlr Hg. apply elem_of_remove_dups, list_elem_of_omap. eauto.
Qed.

Lemma elem_of_groupby_grouped (df : Units) (g : nat) (ms : list (label * Unit)) :
  (g, ms) ∈ groupby_grouped df ↔
  ms = group_rows df g ∧ ∃ lr, lr ∈ rows df ∧ grouped lr.2 = Some g.
Proof.
  unfold groupby_grouped, group_keys. rewrite list_elem_of_fmap.
  setoid_rewrite merge_sort_Permutation.
  setoid_rewrite elem_of_remove_dups. setoid_rewrite list_elem_of_omap.
  naive_solver.
Qed.

(** ** The frame the resolver returns *)

Lemma cliques_rows fc (df df' : Units) dd (l : label) (r : Unit) :
  cliques fc df dd = Ok df' → (l, r) ∈ rows df' →
  l ∈ index df ∧ grouped r = last_clique_index (fc (match_graph df dd)) l.
Proof.
  intros [_ ->]%cliques_Ok. simpl.
  intros ([l0 r0] & [= -> ->] & Hin)%list_elem_of_fmap. simpl. split; [| done].
  unfold index. apply list_elem_of_fmap. by exists (l0, r0).
Qed.

Lemma cliques_index fc (df df' : Units) dd :
  cliques fc df dd = Ok df' → index df' = index df.
Proof.
  intros [_ ->]%cliques_Ok. unfold index. simpl.
  rewrite <- list_fmap_compose. by apply list_fmap_ext.
Qed.

Lemma same_group_same_clique (cs : list (list label)) (l m : label) (g : nat) :
  last_clique_index cs l = Some g → last_clique_index cs m = Some g →
  ∃ c, c ∈ cs ∧ l ∈ c ∧ m ∈ c.
Proof.
  unfold last_clique_index.
  intros (_ & (c & Hc & Hl) & _)%last_clique_from_Some
         (_ & (c' & Hc' & Hm) & _)%last_clique_from_Some.
  rewrite Hc in Hc'. injection Hc' as <-.
  exists c. split; [by eapply list_elem_of_lookup_2 | done].
Qed.

Lemma elem_of_group_labels fc (df df' : Units) dd (g : nat) ms (l : label) :
  cliques fc df dd = Ok df' → (g, ms) ∈ groupby_grouped df' → l ∈ ms.*1 →
  l ∈ index df ∧ last_clique_index (fc (match_graph df dd)) l = Some g.
Proof.
  intros Hok [-> _]%elem_of_groupby_grouped ([l0 r] & -> & Hin)%list_elem_of_fmap.
  apply list_elem_of_filter in Hin as [Hg Hin]. simpl in *.
  destruct (cliques_rows _ _ _ _ _ _ Hok Hin) as [? Heq]. split; [done | congruence].
Qed.

Lemma singleton_of_all_equal (xs : list label) (l : label) :
  NoDup xs → l ∈ xs → (∀ m, m ∈ xs → m = l) → xs = [l].
Proof.
  intros Hnd Hl Hall. destruct xs as [|x xs]; [by apply elem_of_nil in Hl |].
  assert (x = l) as -> by (apply Hall; by left).
  f_equal. destruct xs as [|y xs]; [done |].
  assert (y = l) as -> by (apply Hall; right; by left).
  apply NoDup_cons in Hnd as [Hnot _]. destruct Hnot. by left.
Qed.

(** With the ends of every edge among the records, the resolver returns,
    and no record is left without a group number. *)
Lemma cliques_total fc (df : Units) (dd : list (label * label)) :
  Forall (λ e : label * label, e.1 ∈ index df ∧ e.2 ∈ index df) dd →
  enumerates_maximal_cliques (match_graph df dd) (fc (match_graph df dd)) →
  ∃ df',
    cliques fc df dd = Ok df' ∧
    ∀ l, l ∈ index df → is_Some (last_clique_index (fc (match_graph df dd)) l).
Proof.
  intros Hdd Hcs.
  pose proof (cliques_contract_Ok fc df dd Hdd (proj1 Hcs)) as Hin.
  eexists. split; [by apply cliques_Ok |].
  intros l Hl.
  destruct (enumeration_covers _ _ l Hcs) as (c & Hc & Hlc).
  { apply elem_of_gnodes_match_graph. by left. }
  destruct (last_clique_index _ l) eqn:Hlast; [by eexists |].
  apply last_clique_from_None in Hlast. rewrite Forall_forall in Hlast.
  by destruct (Hlast c Hc).
Qed.

(** C1. For every record set and every set of directed match edges between
    its records, [cliques] returns a frame in which every record has exactly
    one group number: the groups, put end to end, are the records (none
    missing, none twice), no label is in two groups, a record with no
    reciprocal edge is alone in its group, and with no edge at all every
    group is one record. *)
Theorem cliques_partition fc (df : Units) (dd : list (label * label)) :
  Forall (λ e : label * label, e.1 ∈ index df ∧ e.2 ∈ index df) dd →
  enumerates_maximal_cliques (match_graph df dd) (fc (match_graph df dd)) →
  ∃ df',
    cliques fc df dd = Ok df' ∧
    index df' = index df ∧
    (∀ l, l ∈ index df → is_Some (group_of df' l)) ∧
    (mjoin (snd <$> groupby_grouped df')).*1 ≡ₚ index df ∧
    (∀ g1 g2 ms1 ms2 l,
       (g1, ms1) ∈ groupby_grouped df' → (g2, ms2) ∈ groupby_grouped df' →
       l ∈ ms1.*1 → l ∈ ms2.*1 → g1 = g2) ∧
    (∀ g ms l,
       (g, ms) ∈ groupby_grouped df' → l ∈ ms.*1 →
       (∀ m, m ≠ l → ¬ ((l, m) ∈ dd ∧ (m, l) ∈ dd)) →
       (∀ m, m ∈ ms.*1 → m = l) ∧ (NoDup (index df) → ms.*1 = [l])) ∧
    (dd = [] → ∀ g ms l,
       (g, ms) ∈ groupby_grouped df' → l ∈ ms.*1 →
       (∀ m, m ∈ ms.*1 → m = l) ∧ (NoDup (index df) → ms.*1 = [l])).
Proof.
  intros Hdd Hcs.
  destruct (cliques_total fc df dd Hdd Hcs) as (df' & Hok & Hsome).
  set (H := match_graph df dd) in *. set (cs := fc H) in *.
  assert (∀ g ms l,
       (g, ms) ∈ groupby_grouped df' → l ∈ ms.*1 →
       (∀ m, m ≠ l → ¬ ((l, m) ∈ dd ∧ (m, l) ∈ dd)) →
       (∀ m, m ∈ ms.*1 → m = l) ∧ (NoDup (index df) → ms.*1 = [l])) as Hiso.
  { intros g ms l Hg Hl Halone.
    assert (∀ m, m ∈ ms.*1 → m = l) as Hall.
    { intros m Hm.
      destruct (elem_of_group_labels _ _ _ _ _ _ _ Hok Hg Hl) as [_ Hgl].
      destruct (elem_of_group_labels _ _ _ _ _ _ _ Hok Hg Hm) as [_ Hgm].
      destruct (same_group_same_clique _ _ _ _ Hgl Hgm) as (c & Hc & Hlc & Hmc).
      destruct (decide (m = l)) as [| Hne]; [done | exfalso].
      destruct Hcs as [Hmax _]. rewrite Forall_forall in Hmax.
      destruct (Hmax c Hc) as [Hclique _].
      assert (adj H l m) as Hadj
        by (eapply clique_members_adjacent; eauto).
      apply adj_match_graph in Hadj as (_ & ? & ?).
      by apply (Halone m). }
    split; [done |]. intros Hnd.
    apply singleton_of_all_equal; [| done | done].
    apply elem_of_groupby_grouped in Hg as [-> _].
    rewrite <- (cliques_index _ _ _ _ Hok) in Hnd. unfold index in Hnd.
    unfold group_rows. apply (sublist_NoDup _ (rows df').*1); [exact Hnd |].
    apply fmap_sublist, sublist_filter. }
  exists df'. split; [done |]. split; [by eapply cliques_index |].
  split; [| split; [| split; [| split]]].
  - intros l Hl. rewrite (group_of_cliques _ _ _ _ _ Hok Hl). by apply Hsome.
  - rewrite groupby_concat, <- (cliques_index _ _ _ _ Hok).
    unfold index. f_equiv. apply reflexive_eq.
    assert (Forall (λ lr : label * Unit, is_Some (grouped lr.2)) (rows df')) as Hall.
    { apply Forall_forall. intros [l r] Hlr. simpl.
      destruct (cliques_rows _ _ _ _ _ _ Hok Hlr) as [Hl ->]. by apply Hsome. }
    clear -Hall. induction Hall as [|x xs Hx _ IH]; [done |].
    rewrite filter_cons_True by done. by f_equal.
  - intros g1 g2 ms1 ms2 l Hg1 Hg2 Hl1 Hl2.
    destruct (elem_of_group_labels _ _ _ _ _ _ _ Hok Hg1 Hl1) as [_ H1].
    destruct (elem_of_group_labels _ _ _ _ _ _ _ Hok Hg2 Hl2) as [_ H2].
    congruence.
  - done.
  - intros -> g ms l Hg Hl. apply (Hiso g ms l Hg Hl).
    intros m _ [Hnil _]. by apply elem_of_nil in Hnil.
Qed.

Lemma cliques_partition_witness :
  Forall (λ e : label * label, e.1 ∈ index four_units ∧ e.2 ∈ index four_units)
         four_units_edges ∧
  ∃ df',
    cliques find_cliques_ref four_units four_units_edges = Ok df' ∧
    (mjoin (snd <$> groupby_grouped df')).*1 ≡ₚ index four_units.
Proof.
  assert (Forall (λ e : label * label,
                    e.1 ∈ index four_units ∧ e.2 ∈ index four_units)
                 four_units_edges) as Hdd by compute_done.
  split; [exact Hdd |].
  destruct (cliques_partition find_cliques_ref four_units four_units_edges Hdd
              (find_cliques_ref_spec _)) as (df' & Hok & _ & _ & Hperm & _).
  exists df'. split; [exact Hok | exact Hperm].
Defined.

(** C2, as the code has it. The group number of a record is the index of
    the last maximal clique, in enumeration order, that contains it: the
    loop overwrites the number a record got from an earlier clique. *)
Theorem cliques_last_clique_wins fc (df df' : Units) dd (l : label) (i : nat) :
  cliques fc df dd = Ok df' → l ∈ index df →
  (group_of df' l = Some i ↔
   (∃ c, fc (match_graph df dd) !! i = Some c ∧ l ∈ c) ∧
   (∀ k c, i < k → fc (match_graph df dd) !! k = Some c → l ∉ c)).
Proof.
  intros Hok Hl. rewrite (group_of_cliques _ _ _ _ _ Hok Hl).
  unfold last_clique_index. rewrite last_clique_from_Some.
  rewrite Nat.sub_0_r. split; [naive_solver |].
  intros [? ?]. split; [lia | done].
Qed.

Lemma cliques_last_clique_wins_witness :
  ∃ df',
    cliques find_cliques_ref three_units chain_edges = Ok df' ∧
    1 ∈ index three_units ∧
    (group_of df' 1 = Some 1 ↔
     (∃ c, find_cliques_ref (match_graph three_units chain_edges) !! 1 = Some c ∧ 1 ∈ c) ∧
     (∀ k c, 1 < k →
        find_cliques_ref (match_graph three_units chain_edges) !! k = Some c → 1 ∉ c)).
Proof.
  eexists. split; [vm_compute; reflexivity |].
  assert (1 ∈ index three_units) as Hl by compute_done.
  split; [exact Hl |].
  apply (cliques_last_clique_wins find_cliques_ref three_units _ chain_edges 1 1);
    [vm_compute; reflexivity | exact Hl].
Defined.

(** The chain 0 - 1 - 2 has the maximal cliques {1, 2} and {0, 1}; record 1
    is in both. *)
Example chain_cliques :
  find_cliques_ref (match_graph three_units chain_edges) = [[1; 2]; [0; 1]].
Proof. vm_compute. reflexivity. Qed.

(** C2, as the claim states it, fails: on the chain, record 1 is first met
    in the clique of index 0 and ends with group number 1. *)
Lemma cliques_first_clique_counterexample :
  ¬ (∀ fc (df df' : Units) dd (l : label) (i : nat),
       enumerates_maximal_cliques (match_graph df dd) (fc (match_graph df dd)) →
       cliques fc df dd = Ok df' → l ∈ index df →
       first_clique_index (fc (match_graph df dd)) l = Some i →
       group_of df' l = Some i).
Proof.
  intros Hclaim.
  destruct (cliques find_cliques_ref three_units chain_edges) as [df'|] eqn:Hok;
    [| by vm_compute in Hok].
  specialize (Hclaim find_cliques_ref three_units df' chain_edges 1 0
                (find_cliques_ref_spec _) Hok).
  assert (group_of df' 1 = Some 1) as Hlast.
  { vm_compute in Hok. injection Hok as <-. vm_compute. reflexivity. }
  rewrite Hlast in Hclaim. discriminate Hclaim.
  - compute_done.
  - vm_compute. reflexivity.
Qed.

(** C5. A directed edge A → B without its reverse leaves A and B in
    different groups. *)
Theorem nonreciprocal_edge_separates fc (df : Units) dd (A B : label) :
  Forall (λ e : label * label, e.1 ∈ index df ∧ e.2 ∈ index df) dd →
  enumerates_maximal_cliques (match_graph df dd) (fc (match_graph df dd)) →
  (A, B) ∈ dd → (B, A) ∉ dd →
  ∃ df' gA gB,
    cliques fc df dd = Ok df' ∧
    group_of df' A = Some gA ∧ group_of df' B = Some gB ∧ gA ≠ gB.
Proof.
  intros Hdd Hcs HAB HBA.
  destruct (cliques_total fc df dd Hdd Hcs) as (df' & Hok & Hsome).
  pose proof Hdd as Hends. rewrite Forall_forall in Hends.
  destruct (Hends _ HAB) as [HA HB]. simpl in HA, HB.
  destruct (Hsome A HA) as [gA HgA]. destruct (Hsome B HB) as [gB HgB].
  exists df', gA, gB. split; [done |].
  rewrite (group_of_cliques _ _ _ _ _ Hok HA), (group_of_cliques _ _ _ _ _ Hok HB).
  split; [done |]. split; [done |].
  intros ->.
  destruct (same_group_same_clique _ _ _ _ HgA HgB) as (c & Hc & HAc & HBc).
  destruct Hcs as [Hmax _]. rewrite Forall_forall in Hmax.
  destruct (Hmax c Hc) as [Hclique _].
  assert (A ≠ B) as Hne by (intros ->; done).
  pose proof (clique_members_adjacent _ _ _ _ Hclique HAc HBc Hne) as Hadj.
  apply adj_match_graph in Hadj as (_ & _ & ?). done.
Qed.

Lemma nonreciprocal_edge_separates_witness :
  Forall (λ e : label * label, e.1 ∈ index four_units ∧ e.2 ∈ index four_units)
         four_units_edges ∧
  (2, 3) ∈ four_units_edges ∧ ((3, 2) ∉ four_units_edges) ∧
  ∃ df' gA gB,
    cliques find_cliques_ref four_units four_units_edges = Ok df' ∧
    group_of df' 2 = Some gA ∧ group_of df' 3 = Some gB ∧ gA ≠ gB.
Proof.
  assert (Forall (λ e : label * label,
                    e.1 ∈ index four_units ∧ e.2 ∈ index four_units)
                 four_units_edges) as Hdd by compute_done.
  assert ((2, 3) ∈ four_units_edges) as H23 by compute_done.
  assert ((3, 2) ∉ four_units_edges) as H32 by compute_done.
  split; [exact Hdd |]. split; [exact H23 |]. split; [exact H32 |].
  exact (nonreciprocal_edge_separates find_cliques_ref four_units four_units_edges
           2 3 Hdd (find_cliques_ref_spec _) H23 H32).
Defined.

End resolver_facts.

(** * Properties of the aggregator *)

Section aggregator_facts.
Import Pipeline.

(** ** The most frequent value *)

Lemma elem_of_uniq `{EqDecision A} (l : list A) (x : A) : x ∈ uniq l ↔ x ∈ l.
Proof.
  induction l as [|y l IH]; simpl; [done |].
  rewrite !elem_of_cons, list_elem_of_filter, IH.
  destruct (decide (x = y)); naive_solver.
Qed.

Lemma count_not_elem_of `{EqDecision A} (l : list A) (x : A) :
  x ∉ l → count x l = 0.
Proof.
  intros Hx. unfold count. induction l as [|y l IH]; [done |].
  apply not_elem_of_cons in Hx as [Hne Hx].
  rewrite filter_cons_False by done. by apply IH.
Qed.

Lemma count_pos `{EqDecision A} (l : list A) (x : A) : x ∈ l → 0 < count x l.
Proof.
  intros Hx. unfold count.
  assert (x ∈ filter (λ y, y = x) l) as Hin by (by apply list_elem_of_filter).
  destruct (filter _ l); [by apply elem_of_nil in Hin | simpl; lia].
Qed.

Lemma count_two `{EqDecision A} (l : list A) (x y : A) :
  x ≠ y → count x l + count y l ≤ length l.
Proof.
  intros Hne. unfold count. induction l as [|z l IH]; [simpl; lia |].
  rewrite !filter_cons.
  destruct (decide (z = x)), (decide (z = y)); simpl; [congruence | lia..].
Qed.

(** The head of [value_counts] is a most frequent value. *)
Lemma index0_value_counts `{EqDecision A} (l : list A) (v : A) :
  index0 (value_counts l) = Ok v → is_mode v l.
Proof.
  unfold value_counts, index0.
  set (cs := (λ x, (x, count x l)) <$> uniq l).
  pose proof (StronglySorted_merge_sort count_ge cs) as Hsorted.
  pose proof (merge_sort_Permutation count_ge cs) as Hperm.
  destruct (merge_sort count_ge cs) as [|[v' c] sorted]; [done |].
  simpl. intros [= ->].
  assert ((v, c) ∈ cs) as Hv by (rewrite <- Hperm; by left).
  apply list_elem_of_fmap in Hv as (x & [= <- ->] & Hx).
  rewrite elem_of_uniq in Hx. split; [done |].
  intros w. destruct (decide (w ∈ l)) as [Hw | Hw].
  - assert ((w, count w l) ∈ cs) as Hin.
    { apply list_elem_of_fmap. exists w. split; [done | by apply elem_of_uniq]. }
    rewrite <- Hperm in Hin. apply elem_of_cons in Hin as [[= ->] | Hin]; [done |].
    apply StronglySorted_inv in Hsorted as [_ Hall].
    rewrite Forall_forall in Hall. apply (Hall _ Hin).
  - rewrite (count_not_elem_of l w Hw). lia.
Qed.

(** On a column that is not empty, [value_counts(...).index[0]] exists. *)
Lemma index0_value_counts_Ok `{EqDecision A} (l : list A) :
  l ≠ [] → ∃ v, index0 (value_counts l) = Ok v.
Proof.
  intros Hne. unfold value_counts, index0.
  set (cs := (λ x, (x, count x l)) <$> uniq l).
  pose proof (merge_sort_Permutation count_ge cs) as Hperm.
  destruct (merge_sort count_ge cs) as [|[v c] sorted]; [| by eexists].
  apply Permutation_nil_l in Hperm. destruct l as [|x l]; [done |].
  discriminate Hperm.
Qed.

Lemma index0_value_counts_nil `{EqDecision A} :
  index0 (value_counts (@nil A)) = Raise IndexError.
Proof. done. Qed.

(** A value that fills more than half of a column is its only mode. *)
Lemma is_mode_majority `{EqDecision A} (l : list A) (v m : A) :
  is_mode v l → length l < 2 * count m l → v = m.
Proof.
  intros [_ Hmax] Hmaj. destruct (decide (v = m)) as [| Hne]; [done |].
  pose proof (count_two l v m Hne). specialize (Hmax m). lia.
Qed.

(** ** The record of a group *)

Lemma prop_for_groups_inv env (hd : bool) (x : list (label * Unit)) (p : Plant) :
  prop_for_groups env hd x = Ok p →
  ∃ name,
    index0 (value_counts (dropna (column Name x))) = Ok name ∧
    Name p = Some name ∧
    index0 (value_counts (column Country x)) = Ok (Country p) ∧
    index0 (value_counts (column Fueltype x)) = Ok (Fueltype p) ∧
    index0 (value_counts (column Technology x)) = Ok (Technology p) ∧
    index0 (value_counts (column Set_ x)) = Ok (Set_ p) ∧
    index0 (value_counts (column File x)) = Ok (File p) ∧
    Capacity p = fsum (fillna (Fin 0) <$> column Capacity x) ∧
    Duration p =
      (if bool_decide ("Duration" ∈ target_columns env false) && hd
       then fsum (zip_with (λ d c, fdiv (fmul d c) (fsum (column Capacity x)))
                           (column Duration x) (column Capacity x))
       else NaN).
Proof.
  unfold prop_for_groups.
  destruct (index0 (value_counts (dropna (column Name x)))) as [name|]; [| done].
  destruct (index0 (value_counts (column Country x))) as [country|]; [| done].
  destruct (index0 (value_counts (column Fueltype x))) as [fueltype|]; [| done].
  destruct (index0 (value_counts (column Technology x))) as [technology|]; [| done].
  destruct (index0 (value_counts (column Set_ x))) as [set|]; [| done].
  destruct (index0 (value_counts (column File x))) as [file|]; [| done].
  simpl. intros [= <-]. simpl. by exists name.
Qed.

(** A group with a named member has a record. *)
Lemma prop_for_groups_Ok env (hd : bool) (x : list (label * Unit)) :
  (∃ n, Some n ∈ column Name x) → ∃ p, prop_for_groups env hd x = Ok p.
Proof.
  intros [n Hn].
  assert (x ≠ []) as Hx by (intros ->; by apply elem_of_nil in Hn).
  assert (∀ A (f : Unit → A), column f x ≠ []) as Hcol.
  { intros A f. unfold column. destruct x; done. }
  assert (dropna (column Name x) ≠ []) as Hnames.
  { intros Hnil. assert (n ∈ dropna (column Name x)) as Hin.
    { unfold dropna. apply list_elem_of_omap. by exists (Some n). }
    rewrite Hnil in Hin. by apply elem_of_nil in Hin. }
  unfold prop_for_groups.
  destruct (index0_value_counts_Ok _ Hnames) as [? ->].
  destruct (index0_value_counts_Ok _ (Hcol _ Country)) as [? ->].
  destruct (index0_value_counts_Ok _ (Hcol _ Fueltype)) as [? ->].
  destruct (index0_value_counts_Ok _ (Hcol _ Technology)) as [? ->].
  destruct (index0_value_counts_Ok _ (Hcol _ Set_)) as [? ->].
  destruct (index0_value_counts_Ok _ (Hcol _ File)) as [? ->].
  simpl. by eexists.
Qed.

(** A group without a named member has none: [value_counts()] of the names
    is empty and [index[0]] raises. *)
Lemma prop_for_groups_unnamed env (hd : bool) (x : list (label * Unit)) :
  Forall (λ n, n = None) (column Name x) →
  prop_for_groups env hd x = Raise IndexError.
Proof.
  intros Hall. unfold prop_for_groups.
  assert (dropna (column Name x) = []) as ->; [| done].
  unfold dropna. induction Hall as [|? ? -> _ IH]; [done | by simpl].
Qed.

Lemma fsum_fillna (xs : list float) :
  fsum (fillna (Fin 0) <$> xs) = foldr fadd (Fin 0) (fillna (Fin 0) <$> xs).
Proof.
  unfold fsum. f_equal. induction xs as [|x xs IH]; [done |].
  rewrite fmap_cons, filter_cons_True; [by f_equal |].
  by destruct x.
Qed.

(** C6. The Capacity of the record of a group is the sum of the Capacity
    cells of its members, a null cell counted as 0; members with Capacity
    100, null and 50 give 150. *)
Theorem prop_for_groups_capacity env (hd : bool) (x : list (label * Unit)) :
  (∃ n, Some n ∈ column Name x) →
  ∃ p, prop_for_groups env hd x = Ok p ∧
       Capacity p
       = foldr (λ c total, fadd (if isnull c then Fin 0 else c) total) (Fin 0)
               (column Capacity x) ∧
       (column Capacity x = [Fin 100; NaN; Fin 50] → Capacity p = Fin 150).
Proof.
  intros Hname. destruct (prop_for_groups_Ok env hd x Hname) as [p Hp].
  exists p. split; [done |].
  apply prop_for_groups_inv in Hp as (_ & _ & _ & _ & _ & _ & _ & _ & -> & _).
  rewrite fsum_fillna. split.
  - generalize (column Capacity x) as cs. induction cs as [|c cs IH]; [done |].
    simpl. f_equal. exact IH.
  - intros ->. vm_compute. reflexivity.
Qed.

Lemma prop_for_groups_capacity_witness :
  (∃ n, Some n ∈ column Name capacity_group) ∧
  ∃ p, prop_for_groups (sample_env [] columns_without_Duration) false capacity_group
       = Ok p ∧ Capacity p = Fin 150.
Proof.
  assert (∃ n, Some n ∈ column Name capacity_group) as Hname.
  { exists "Alpha". compute_done. }
  split; [exact Hname |].
  destruct (prop_for_groups_capacity (sample_env [] columns_without_Duration)
              false capacity_group Hname) as (p & Hp & _ & H150).
  exists p. split; [exact Hp | apply H150; reflexivity].
Defined.

(** C4, as the code has it. Country, Fueltype, Technology, Set and File of
    the record of a group are each a most frequent value of the column,
    null cells counted, so that a column with null in more than half of its
    cells gives null; Name is a most frequent value among the names that
    are not null, and is never null. *)
Theorem prop_for_groups_mode env (hd : bool) (x : list (label * Unit)) :
  (∃ n, Some n ∈ column Name x) →
  ∃ p, prop_for_groups env hd x = Ok p ∧
       (∃ n, Name p = Some n ∧ is_mode n (dropna (column Name x))) ∧
       (is_mode (Country p) (column Country x) ∧
        is_mode (Fueltype p) (column Fueltype x) ∧
        is_mode (Technology p) (column Technology x) ∧
        is_mode (Set_ p) (column Set_ x) ∧
        is_mode (File p) (column File x)) ∧
       ((length x < 2 * count None (column Country x) → Country p = None) ∧
        (length x < 2 * count None (column Fueltype x) → Fueltype p = None) ∧
        (length x < 2 * count None (column Technology x) → Technology p = None) ∧
        (length x < 2 * count None (column Set_ x) → Set_ p = None) ∧
        (length x < 2 * count None (column File x) → File p = None)).
Proof.
  intros Hname. destruct (prop_for_groups_Ok env hd x Hname) as [p Hp].
  exists p. split; [done |].
  apply prop_for_groups_inv in Hp
    as (name & Hn & HName & HC & HF & HT & HS & HFi & _).
  apply index0_value_counts in Hn, HC, HF, HT, HS, HFi.
  split; [by exists name |]. split; [done |].
  assert (∀ A (f : Unit → A), length (column f x) = length x) as Hlen.
  { intros A f. unfold column. by rewrite length_fmap. }
  repeat split; intros Hmaj;
    (eapply is_mode_majority; [eassumption | by rewrite Hlen]).
Qed.

Lemma prop_for_groups_mode_witness :
  (∃ n, Some n ∈ column Name mostly_unnamed_group) ∧
  ∃ p, prop_for_groups (sample_env [] columns_without_Duration) false
                       mostly_unnamed_group = Ok p ∧
       Name p = Some "Alpha" ∧ Country p = None.
Proof.
  assert (∃ n, Some n ∈ column Name mostly_unnamed_group) as Hname.
  { exists "Alpha". compute_done. }
  split; [exact Hname |].
  destruct (prop_for_groups_mode (sample_env [] columns_without_Duration)
              false mostly_unnamed_group Hname)
    as (p & Hp & (n & Hn & Hmode) & _ & (HC & _)).
  exists p. split; [exact Hp |]. split.
  - rewrite Hn. f_equal. destruct Hmode as [Hin _].
    vm_compute in Hin.
    inversion Hin as [? ? Heq | ? ? ? Hin' Heq]; [done |].
    inversion Hin'.
  - apply HC. vm_compute. lia.
Defined.

(** C4, as the claim states it, fails for Name: two of three members have
    no name, and the record of the group has the name of the third. *)
Lemma prop_for_groups_name_counterexample :
  ∃ p, prop_for_groups (sample_env [] columns_without_Duration) false
                       mostly_unnamed_group = Ok p ∧
       length mostly_unnamed_group
         < 2 * count None (column Name mostly_unnamed_group) ∧
       Name p = Some "Alpha" ∧ Name p ≠ None.
Proof.
  eexists. split; [vm_compute; reflexivity |].
  split; [vm_compute; lia |]. split; [reflexivity | done].
Qed.

(** ** Duration *)

(** C3, as the code has it. For a group of exactly two members with
    (Capacity, Duration) = (100, 2) and (300, 6), and Duration among the
    target columns, the Duration of the record is the capacity-weighted
    mean (100*2 + 300*6)/400, which is 5; the later replacement of 0 by
    null leaves it. *)
Theorem prop_for_groups_duration env (l1 l2 : label) (r1 r2 : Unit) :
  "Duration" ∈ target_columns env false →
  Capacity r1 = Fin 100 → Duration r1 = Fin 2 →
  Capacity r2 = Fin 300 → Duration r2 = Fin 6 →
  (∃ n, Some n ∈ column Name [(l1, r1); (l2, r2)]) →
  ∃ p d, prop_for_groups env true [(l1, r1); (l2, r2)] = Ok p ∧
         Duration p = Fin d ∧
         (d == (100 * 2 + 300 * 6) / 400)%Q ∧ (d == 5)%Q ∧
         freplace (Fin 0) NaN (Duration p) = Fin d.
Proof.
  intros Htc Hc1 Hd1 Hc2 Hd2 Hname.
  destruct (prop_for_groups_Ok env true _ Hname) as [p Hp].
  exists p. apply prop_for_groups_inv in Hp as Hinv.
  destruct Hinv as (_ & _ & _ & _ & _ & _ & _ & _ & _ & HD).
  rewrite bool_decide_eq_true_2 in HD by done.
  unfold column in HD. simpl in HD. rewrite Hc1, Hd1, Hc2, Hd2 in HD.
  eexists. split; [done |]. rewrite HD.
  split; [vm_compute; reflexivity |].
  split; [vm_compute; reflexivity |]. split; vm_compute; reflexivity.
Qed.

Lemma prop_for_groups_duration_witness :
  "Duration" ∈ columns_with_Duration false ∧
  ∃ p d, prop_for_groups (sample_env [] columns_with_Duration) true duration_group
         = Ok p ∧ Duration p = Fin d ∧ (d == 5)%Q.
Proof.
  assert ("Duration" ∈ columns_with_Duration false) as Htc by compute_done.
  split; [exact Htc |].
  destruct (prop_for_groups_duration (sample_env [] columns_with_Duration)
              0 1 (storage_row "a" "Alpha" 100 2) (storage_row "b" "Alpha" 300 6)
              Htc eq_refl eq_refl eq_refl eq_refl)
    as (p & d & Hp & Hd & _ & H5 & _).
  { exists "Alpha". compute_done. }
  exists p, d. split; [exact Hp |]. split; [exact Hd | exact H5].
Defined.

(** C3, as the claim states it, fails: the Duration of that record is not
    5.5. *)
Lemma prop_for_groups_duration_counterexample :
  ∃ p d, prop_for_groups (sample_env [] columns_with_Duration) true duration_group
         = Ok p ∧ Duration p = Fin d ∧ ¬ (d == 55 / 10)%Q.
Proof.
  eexists _, _. split; [vm_compute; reflexivity |].
  split; [reflexivity |]. intros Heq. vm_compute in Heq. discriminate Heq.
Qed.

End aggregator_facts.

(** * Properties of the pipeline *)

Section pipeline_facts.
Import Pipeline.

Lemma io_bind_run {A B} (m : IO A) (k : A → IO B) (w : World) :
  (m ≫= k) w
  = match m w with
    | (Ok a, w') => k a w'
    | (Raise e, w') => (Raise e, w')
    end.
Proof. reflexivity. Qed.

(** ** The trace *)

Lemma grows_ret {A} (a : A) : grows (mret a : IO A).
Proof. intros w. done. Qed.

Lemma grows_lift {A} (r : result A) : grows (lift r).
Proof. intros w. done. Qed.

Lemma grows_raise {A} (e : exn) : grows (raise e : IO A).
Proof. intros w. done. Qed.

Lemma grows_emit (ev : event) : grows (emit ev).
Proof. intros w. simpl. by apply suffix_cons_r. Qed.

Lemma grows_bind {A B} (m : IO A) (k : A → IO B) :
  grows m → (∀ a, grows (k a)) → grows (m ≫= k).
Proof.
  intros Hm Hk w. specialize (Hm w).
  unfold mbind, IO_bind, io_bind. destruct (m w) as [[a|e] w']; simpl in *.
  - etrans; [exact Hm | apply Hk].
  - done.
Qed.

Lemma grows_try_except {A} (m h : IO A) (classes : list exn) :
  grows m → grows h → grows (try_except m classes h).
Proof.
  intros Hm Hh w. specialize (Hm w).
  unfold try_except. destruct (m w) as [[a|e] w']; simpl in *; [done |].
  case_decide; [| done]. etrans; [exact Hm | apply Hh].
Qed.

Lemma grows_read_groups (path : string) (idx : list label) :
  grows (read_groups path idx).
Proof.
  unfold read_groups. apply grows_bind; [apply grows_emit |].
  intros _ w. done.
Qed.

Lemma grows_to_csv (path : string) (series : list (label * option nat)) :
  grows (to_csv path series).
Proof.
  unfold to_csv. apply grows_bind; [apply grows_emit |].
  intros _ w. by destruct (write_fault w).
Qed.

Lemma grows_aggregate_units env (df : Units) (us : bool) name (dc rg : bool) :
  grows (aggregate_units env df us name dc rg).
Proof.
  unfold aggregate_units. apply grows_bind.
  { unfold load_saved_groups. destruct us; [| apply grows_ret].
    apply grows_try_except.
    - apply grows_bind; [apply grows_emit |]. intros _.
      apply grows_bind; [apply grows_read_groups |]. intros ?. apply grows_ret.
    - apply grows_bind; [apply grows_emit |]. intros _. apply grows_ret. }
  intros df1. apply grows_bind; [| intros ?; apply grows_lift].
  unfold resolve_groups. destruct (has_grouped df1); [apply grows_ret |].
  apply grows_bind; [apply grows_emit |]. intros _.
  apply grows_bind; [apply grows_lift |]. intros df2.
  apply grows_bind; [| intros ?; apply grows_ret].
  apply grows_try_except; [apply grows_to_csv | apply grows_ret].
Qed.

(** C7. With aggregation and the saved aggregation both asked for and no
    dataset name, [clean_single] raises [ValueError] at once, for every
    record set: nothing is read, written, logged or sent to the matcher,
    and the world is left as it was.  In every other configuration the
    run begins: its first entry in the trace is the message that the names
    are being cleaned. *)
Theorem clean_single_no_dataset_name env (df : Units) (dataset_name : option string)
  (aggregate_powerplant_units use_saved_aggregation
   detailed_columns return_aggregation_groups : bool) (w : World) :
  (clean_single env df None true true detailed_columns return_aggregation_groups w
   = (Raise ValueError, w)) ∧
  (¬ (aggregate_powerplant_units = true ∧ use_saved_aggregation = true ∧
      dataset_name = None) →
   (LogInfo ("Cleaning plant names in '"
             +:+ default "Unnamed dataset" dataset_name +:+ "'.") :: trace w)
   `suffix_of`
   trace (clean_single env df dataset_name aggregate_powerplant_units
            use_saved_aggregation detailed_columns
            return_aggregation_groups w).2).
Proof.
  split; [reflexivity |]. intros Hcfg. unfold clean_single.
  assert (aggregate_powerplant_units && use_saved_aggregation
          && bool_decide (dataset_name = None) = false) as ->.
  { destruct aggregate_powerplant_units, use_saved_aggregation; simpl; try done.
    apply bool_decide_eq_false. naive_solver. }
  rewrite io_bind_run. unfold emit at 1. cbv beta iota.
  set (w1 := mkWorld _ _ _).
  change (LogInfo _ :: trace w) with (trace w1).
  match goal with
  | |- _ `suffix_of` trace (?k w1).2 => assert (grows k) as Hk; [| apply Hk]
  end.
  apply grows_bind; [apply grows_lift |]. intros df1.
  apply grows_bind.
  { destruct aggregate_powerplant_units; [| apply grows_ret].
    apply grows_bind; [apply grows_emit |]. intros _.
    apply grows_aggregate_units. }
  intros res. apply grows_bind; [apply grows_lift |]. intros out.
  destruct return_aggregation_groups; [| apply grows_ret].
  destruct (res.2); [apply grows_ret | apply grows_raise].
Qed.

Lemma clean_single_no_dataset_name_witness :
  ¬ (true = true ∧ true = true ∧ Some "x" = (None : option string)) ∧
  clean_single (sample_env four_units_edges columns_without_Duration)
               four_units None true true false false empty_world
  = (Raise ValueError, empty_world) ∧
  [LogInfo "Cleaning plant names in 'x'."]
  `suffix_of`
  trace (clean_single (sample_env four_units_edges columns_without_Duration)
                      four_units (Some "x") true true false false empty_world).2.
Proof.
  assert (¬ (true = true ∧ true = true ∧ Some "x" = (None : option string)))
    as Hcfg by (intros (_ & _ & Hname); discriminate Hname).
  split; [exact Hcfg |].
  destruct (clean_single_no_dataset_name
              (sample_env four_units_edges columns_without_Duration)
              four_units (Some "x") true true false false empty_world)
    as [Hraise Hruns].
  split; [exact Hraise | exact (Hruns Hcfg)].
Defined.

(** The check is in [clean_single] only: [aggregate_units], called with the
    saved aggregation asked for and no dataset name, goes on and looks for
    the file of the dataset "None". *)
Example aggregate_units_without_name :
  ∃ r w',
    aggregate_units (sample_env four_units_edges columns_without_Duration)
                    four_units true None false false empty_world = (Ok r, w') ∧
    ReadCsv "data/out/aggregation_groups_None.csv" ∈ trace w'.
Proof. eexists _, _. split; [vm_compute; reflexivity | compute_done]. Qed.

(** ** Persisting the groups *)

Lemma load_saved_groups_fault env (df : Units) (us : bool) name
  (fault : option exn) (w : World) :
  load_saved_groups env df us name (set_fault fault w)
  = ((load_saved_groups env df us name w).1,
     set_fault fault (load_saved_groups env df us name w).2).
Proof.
  unfold load_saved_groups. destruct us; [| done].
  io_unfold. destruct (files w !! cache_path env name) as [[g|]|]; cbn; try done.
  case_decide; done.
Qed.

(** A write that raises [IndexError] and a write that succeeds leave the
    resolver block with the same frame and the same trace. *)
Lemma resolve_groups_IndexError env (df : Units) name (w : World) :
  (resolve_groups env df name (set_fault (Some IndexError) w)).1
  = (resolve_groups env df name (set_fault None w)).1 ∧
  trace (resolve_groups env df name (set_fault (Some IndexError) w)).2
  = trace (resolve_groups env df name (set_fault None w)).2.
Proof.
  unfold resolve_groups. destruct (has_grouped df); [done |].
  io_unfold. destruct (Resolver.cliques _ df _); done.
Qed.

(** C8, as the code has it. A write of the group assignment that fails
    with [IndexError] does not stop [aggregate_units]: the outcome, and the
    calls and messages on the way, are those of the run in which the write
    succeeds. *)
Theorem aggregate_units_IndexError_on_write env (df : Units) (us : bool) name
  (detailed_columns return_aggregation_groups : bool) (w : World) :
  (aggregate_units env df us name detailed_columns return_aggregation_groups
                   (set_fault (Some IndexError) w)).1
  = (aggregate_units env df us name detailed_columns return_aggregation_groups
                     (set_fault None w)).1 ∧
  trace (aggregate_units env df us name detailed_columns return_aggregation_groups
                         (set_fault (Some IndexError) w)).2
  = trace (aggregate_units env df us name detailed_columns return_aggregation_groups
                           (set_fault None w)).2.
Proof.
  unfold aggregate_units.
  rewrite !io_bind_run, !load_saved_groups_fault.
  destruct (load_saved_groups env df us name w) as [[df1|e] w1]; [| done].
  cbn [fst snd]. rewrite !io_bind_run.
  destruct (resolve_groups_IndexError env df1 name w1) as [Hres Htrace].
  destruct (resolve_groups env df1 name (set_fault (Some IndexError) w1))
    as [r1 w1'].
  destruct (resolve_groups env df1 name (set_fault None w1)) as [r2 w2'].
  simpl in Hres, Htrace. subst r2. destruct r1; done.
Qed.

(** Any other exception of the write leaves the resolver block as it is
    raised. *)
Lemma resolve_groups_other_fault env (df : Units) name (e : exn) (w : World) :
  has_grouped df = false → e ≠ IndexError →
  (∃ df', Resolver.cliques (find_cliques env) df (duke env df) = Ok df') →
  (resolve_groups env df name (set_fault (Some e) w)).1 = Raise e.
Proof.
  intros Hg He [df' Hok]. unfold resolve_groups. rewrite Hg.
  io_unfold. rewrite Hok. cbn.
  rewrite decide_False; [done |].
  by intros ->%list_elem_of_singleton.
Qed.

(** C8, as the claim states it, fails: a write that raises [IOError] stops
    [aggregate_units], while the same run with a write that succeeds gives
    the aggregated record set. *)
Lemma aggregate_units_IOError_counterexample :
  (aggregate_units (sample_env four_units_edges columns_without_Duration)
                   four_units false (Some "x") false false readonly_world).1
  = Raise IOError ∧
  ∃ out, (aggregate_units (sample_env four_units_edges columns_without_Duration)
                          four_units false (Some "x") false false
                          (set_fault None readonly_world)).1
         = Ok out.
Proof.
  split; [vm_compute; reflexivity |].
  eexists. vm_compute. reflexivity.
Qed.

End pipeline_facts.

(** * Properties of the name normaliser *)

Section normalizer_facts.
Import Normalizer.



Lemma zip_with_fmap_same {A B C} (f : A → B → C) (g : A → B) (l : list A) :
  zip_with f l (g <$> l) = (λ x, f x (g x)) <$> l.
Proof. induction l as [|x l IH]; [done |]. simpl. by f_equal. Qed.


Lemma fmap_snd_relabel {A B} (l : list (A * B)) :
  (imap (λ i (p : A * B), (i, p.2)) l).*2 = l.*2.
Proof.
  apply list_eq. intros i.
  rewrite !list_lookup_fmap, list_lookup_imap. by destruct (l !! i).
Qed.

(** The filter of [clean_powerplantname] lets a row without a name pass. *)
Lemma filter_keeps_null_name {P} (r : Row P) :
  Name r = None → Name r ≠ Some "".
Proof. by intros ->. Qed.





(** Twenty records named "Alpha ** Nord": the word "**" is common, its
    pattern does not compile, and no frame is returned. *)
Example clean_powerplantname_ReError :
  clean_powerplantname RefRegex.engine starred_units = Raise ReError.
Proof. vm_compute. reflexivity. Qed.


End normalizer_facts.

(** * Properties of the attribute classifiers *)

Section classifier_facts.
Import Classifier.

(** ** Rules for [keeps] *)

Lemma keeps_ret {A} (h0 : heap) (a : A) (post : A → Prop) :
  post a → keeps h0 (mret a) post.
Proof. intros Hp h Hh. split; [done |]. by intros ? [= <-]. Qed.

Lemma keeps_raise {A} (h0 : heap) (e : exn) (post : A → Prop) :
  keeps h0 (raise e) post.
Proof. intros h Hh. split; done. Qed.

Lemma keeps_bind {A B} (h0 : heap) (m : M A) (k : A → M B)
  (P : A → Prop) (Q : B → Prop) :
  keeps h0 m P → (∀ a, P a → keeps h0 (k a) Q) → keeps h0 (m ≫= k) Q.
Proof.
  intros Hm Hk h Hh. destruct (Hm h Hh) as [Hpre Hpost].
  unfold mbind, M_bind. destruct (m h) as [[a|e] h']; simpl in *.
  - apply (Hk a); [by apply Hpost | done].
  - by split.
Qed.

Lemma keeps_weaken {A} (h0 : heap) (m : M A) (P Q : A → Prop) :
  keeps h0 m P → (∀ a, P a → Q a) → keeps h0 m Q.
Proof.
  intros Hm HPQ h Hh. destruct (Hm h Hh) as [Hpre Hpost].
  split; [done |]. intros a Ha. by apply HPQ, Hpost.
Qed.

Lemma keeps_alloc (h0 : heap) (cells : list cell) :
  keeps h0 (alloc cells) (λ l, length h0 ≤ l).
Proof.
  intros h Hh. unfold alloc. simpl. split.
  - by apply prefix_app_r.
  - intros l [= <-]. by apply prefix_length.
Qed.

Lemma keeps_read (h0 : heap) (l : loc) : keeps h0 (read l) (λ _, True).
Proof. intros h Hh. by split. Qed.

Lemma keeps_write (h0 : heap) (l : loc) (cells : list cell) :
  length h0 ≤ l → keeps h0 (write l cells) (λ _, True).
Proof.
  intros Hl h [k ->]. unfold write. cbn [fst snd]. split; [| done].
  rewrite insert_app_r_alt by done. by apply prefix_app_r.
Qed.

Lemma keeps_for_each {A} (h0 : heap) (items : list A) (body : A → M unit) :
  (∀ i, keeps h0 (body i) (λ _, True)) →
  keeps h0 (for_each items body) (λ _, True).
Proof.
  intros Hbody. induction items as [|i items IH]; simpl.
  - by apply keeps_ret.
  - eapply keeps_bind; [apply Hbody | done].
Qed.

Lemma keeps_fold_each {A S} (h0 : heap) (items : list A) (body : S → A → M S)
  (P : S → Prop) (s : S) :
  P s → (∀ s i, P s → keeps h0 (body s i) P) →
  keeps h0 (fold_each items body s) P.
Proof.
  intros Hs Hbody. revert s Hs. induction items as [|i items IH]; intros s Hs; simpl.
  - by apply keeps_ret.
  - eapply keeps_bind; [by apply Hbody | done].
Qed.

Lemma keeps_getitem (h0 : heap) (df : Frame) (col : string) :
  keeps h0 (getitem df col)
        (λ s, ∃ l, (col, l) ∈ f_columns df ∧ s = mkSeries (f_index df) l).
Proof.
  unfold getitem, column_loc.
  destruct (list_find _ (f_columns df)) as [[i [c l]]|] eqn:Hfind; simpl.
  - apply keeps_ret. apply list_find_Some in Hfind as (Hi & Hc & _).
    simpl in Hc. subst c. exists l. split; [| done].
    by eapply list_elem_of_lookup_2.
  - apply keeps_raise.
Qed.

Lemma keeps_items (h0 : heap) (s : Series) : keeps h0 (items s) (λ _, True).
Proof.
  unfold items. eapply keeps_bind; [apply keeps_read |].
  intros cells _. by apply keeps_ret.
Qed.

Lemma keeps_new_series (h0 : heap) (vs : list (label * cell)) :
  keeps h0 (new_series vs) (new_in h0).
Proof.
  unfold new_series. eapply keeps_bind; [apply keeps_alloc |].
  intros l Hl. by apply keeps_ret.
Qed.

Lemma keeps_copy (h0 : heap) (s : Series) : keeps h0 (copy s) (new_in h0).
Proof.
  unfold copy. eapply keeps_bind; [apply keeps_items |].
  intros vs _. apply keeps_new_series.
Qed.

Lemma keeps_dropna_series (h0 : heap) (s : Series) :
  keeps h0 (dropna_series s) (new_in h0).
Proof.
  unfold dropna_series. eapply keeps_bind; [apply keeps_items |].
  intros vs _. apply keeps_new_series.
Qed.

Lemma keeps_loc_set_mask (h0 : heap) (s : Series) (mask : list bool) (v : string) :
  new_in h0 s → keeps h0 (loc_set_mask s mask v) (λ _, True).
Proof.
  intros Hs. unfold loc_set_mask. eapply keeps_bind; [apply keeps_read |].
  intros cells _. by apply keeps_write.
Qed.

Lemma keeps_fillna_inplace (h0 : heap) (s : Series) (v : string) :
  new_in h0 s → keeps h0 (fillna_inplace s v) (λ _, True).
Proof.
  intros Hs. unfold fillna_inplace. eapply keeps_bind; [apply keeps_read |].
  intros cells _. by apply keeps_write.
Qed.

Lemma keeps_copy_columns (h0 : heap) (cols : list (string * loc)) :
  keeps h0 (copy_columns cols)
        (λ cols', Forall (λ c : string * loc, length h0 ≤ c.2) cols').
Proof.
  induction cols as [|[name l] cols IH]; simpl.
  - by apply keeps_ret.
  - eapply keeps_bind; [apply keeps_read |]. intros cells _.
    eapply keeps_bind; [apply keeps_alloc |]. intros l' Hl'.
    eapply keeps_bind; [apply IH |]. intros rest Hrest.
    apply keeps_ret. by constructor.
Qed.

(** Every column of the frame that [assign] returns has a buffer of its
    own. *)
Lemma keeps_assign (h0 : heap) (df : Frame) (col : string) (s : Series) :
  keeps h0 (assign df col s)
        (λ df', Forall (λ c : string * loc, length h0 ≤ c.2) (f_columns df')).
Proof.
  unfold assign. eapply keeps_bind; [apply keeps_copy_columns |].
  intros cols Hcols. eapply keeps_bind; [apply keeps_items |]. intros vs _.
  eapply keeps_bind; [apply keeps_alloc |]. intros l Hl.
  apply keeps_ret. simpl. unfold set_column. case_bool_decide.
  - apply Forall_fmap. eapply Forall_impl; [exact Hcols |].
    intros c Hc. simpl. by case_decide.
  - apply Forall_app. split; [done |]. by repeat constructor.
Qed.

Lemma keeps_contains_mask re (h0 : heap) (df : Frame) (i : string)
  (ignore_case : bool) (pattern : string) (idx : list label) :
  keeps h0 (contains_mask re df i ignore_case pattern idx) (λ _, True).
Proof.
  unfold contains_mask. eapply keeps_bind; [apply keeps_getitem |].
  intros col _. eapply keeps_bind; [apply keeps_dropna_series |].
  intros d _. eapply keeps_bind; [apply keeps_items |].
  intros vs _. by apply keeps_ret.
Qed.

(** ** Set classification and technology extraction keep the input *)

(** [gather_set_info] leaves every buffer of the store it is run in as it
    was: the column it writes into is a copy. *)
Lemma gather_set_info_keeps_input re (df : Frame) (search_col : list string)
  (h : heap) :
  h `prefix_of` (gather_set_info re df search_col h).2.
Proof.
  assert (keeps h (gather_set_info re df search_col) (λ _, True)) as Hkeeps.
  { unfold gather_set_info.
    eapply (keeps_bind _ _ _ (new_in h)).
    { destruct (has_column df "Set").
      - eapply keeps_bind; [apply keeps_getitem |]. intros s _. apply keeps_copy.
      - apply keeps_new_series. }
    intros Set_ HSet.
    eapply keeps_bind.
    { apply keeps_for_each. intros i.
      eapply keeps_bind; [apply keeps_contains_mask |].
      intros mask _. by apply keeps_loc_set_mask. }
    intros _ _. eapply keeps_bind.
    { apply keeps_for_each. intros i.
      eapply keeps_bind; [apply keeps_contains_mask |].
      intros mask _. by apply keeps_loc_set_mask. }
    intros _ _. eapply keeps_bind; [apply keeps_assign |].
    intros df' Hdf'. eapply keeps_bind; [apply keeps_getitem |].
    intros s (l & Hl & ->). eapply keeps_bind.
    { apply keeps_fillna_inplace. unfold new_in. simpl.
      rewrite Forall_forall in Hdf'. apply (Hdf' _ Hl). }
    intros _ _. by apply keeps_ret. }
  by apply Hkeeps.
Qed.

(** [gather_technology_info] leaves every buffer of the store it is run in
    as it was: it works on what [dropna] returns. *)
Lemma gather_technology_info_keeps_input re target_technologies (df : Frame)
  (search_col : list string) (h : heap) :
  h `prefix_of` (gather_technology_info re target_technologies df search_col h).2.
Proof.
  assert (keeps h (gather_technology_info re target_technologies df search_col)
                (λ _, True)) as Hkeeps.
  { unfold gather_technology_info.
    eapply (keeps_bind _ _ _ (new_in h)).
    { destruct (has_column df "Technology").
      - eapply keeps_bind; [apply keeps_getitem |].
        intros s _. apply keeps_dropna_series.
      - apply keeps_new_series. }
    intros technology Htech.
    eapply (keeps_bind _ _ _ (new_in h)).
    { apply keeps_fold_each; [done |]. intros t i Ht.
      unfold gather_technology_step.
      eapply keeps_bind; [apply keeps_getitem |]. intros col _.
      eapply keeps_bind; [apply keeps_dropna_series |]. intros d _.
      eapply keeps_bind; [apply keeps_items |]. intros vs _.
      eapply keeps_bind; [apply keeps_items |]. intros tvs _.
      eapply keeps_bind.
      { case_decide; [by apply keeps_write | by apply keeps_ret]. }
      intros _ _. eapply keeps_bind; [apply keeps_items |]. intros tvs' _.
      apply keeps_new_series. }
    intros technology' _.
    eapply keeps_weaken; [apply keeps_assign | done]. }
  by apply Hkeeps.
Qed.

(** ** Fuel type refinement writes into the input *)

(** C9 at a record set with the fuel type Coal twice and a name with
    "Brown": [gather_fueltype_info] returns a new frame, and the Fueltype
    column of the frame it was given reads Lignite and Hard Coal
    afterwards, where it read Coal and Coal before.  The series the
    function writes into shares the buffer of the column. *)
Theorem gather_fueltype_info_writes_input :
  column_cells coal_store coal_frame "Fueltype" = Some [Some "Coal"; Some "Coal"] ∧
  ∃ df' h',
    gather_fueltype_info RefRegex.engine coal_frame ["Name"; "Technology"] coal_store
    = (Ok df', h') ∧
    column_cells h' coal_frame "Fueltype"
    = Some [Some "Lignite"; Some "Hard Coal"] ∧
    column_cells h' df' "Fueltype" = Some [Some "Lignite"; Some "Hard Coal"] ∧
    ¬ coal_store `prefix_of` h'.
Proof.
  split; [reflexivity |]. eexists _, _. split; [vm_compute; reflexivity |].
  split; [reflexivity |]. split; [reflexivity |].
  intros [k Hk]. discriminate Hk.
Qed.

(** The same for every frame: even with no column to search, the renaming
    of Coal is done in the buffer of the column that was handed in. *)
Lemma gather_fueltype_info_renames_in_place re (df : Frame) (l : loc)
  (cells : list cell) (h : heap) :
  column_loc df "Fueltype" = Some l → h !! l = Some cells →
  (gather_fueltype_info re df [] h).2 !! l
  = Some ((λ c : cell, if decide (c = Some "Coal") then Some "Hard Coal" else c)
            <$> cells).
Proof.
  intros Hcol Hcells. unfold gather_fueltype_info, getitem. rewrite Hcol.
  unfold Series_of, replace_inplace, read, write.
  unfold mbind, M_bind, mret, M_ret. cbn [for_each s_data fst snd].
  unfold mret, M_ret. cbv beta iota. rewrite Hcells.
  change (default [] (Some cells)) with cells.
  set (cells' := _ <$> cells). set (h1 := <[l:=cells']> h).
  destruct (keeps_assign h1 df "Fueltype" (mkSeries (f_index df) l) h1)
    as [[k Hk] _]; [done |].
  refine (eq_trans (f_equal (λ x : heap, x !! l) Hk) _). cbv beta.
  assert (l < length h) as Hl by (by eapply lookup_lt_Some).
  rewrite lookup_app_l by (unfold h1; by rewrite length_insert).
  unfold h1. by apply list_lookup_insert_eq.
Qed.

(** When a search column is missing the function raises [KeyError], and
    what it wrote before stays written. *)
Example gather_fueltype_info_KeyError :
  ∃ h', gather_fueltype_info RefRegex.engine coal_frame ["Name"; "Set"] coal_store
        = (Raise KeyError, h') ∧
        column_cells h' coal_frame "Fueltype" = Some [Some "Lignite"; Some "Coal"].
Proof. eexists. split; [vm_compute; reflexivity | reflexivity]. Qed.

(** The returned frames on the samples: a record no rule applies to keeps
    its cell, a null Set becomes PP, a null Technology stays null. *)
Example gather_set_info_sample :
  ∃ df' h',
    gather_set_info RefRegex.engine set_frame ["Name"; "Fueltype"; "Technology"]
                    set_store = (Ok df', h') ∧
    column_cells h' df' "Set"
    = Some [Some "CHP"; Some "Store"; Some "CHP"; Some "PP"] ∧
    column_cells h' set_frame "Set" = Some [None; Some "CHP"; Some "CHP"; None].
Proof. eexists _, _. split; [vm_compute; reflexivity |]. by split. Qed.

Example gather_technology_info_sample :
  ∃ df' h',
    gather_technology_info RefRegex.engine sample_technologies set_frame
                           ["Name"; "Fueltype"] set_store = (Ok df', h') ∧
    column_cells h' df' "Technology" = Some [None; None; Some "Onshore"; None] ∧
    column_cells h' set_frame "Technology" = Some [None; None; Some "Onshore"; None].
Proof. eexists _, _. split; [vm_compute; reflexivity |]. by split. Qed.

End classifier_facts.

(** * Further properties of the duplicate-group resolver *)

Section resolver_more.
Import Resolver.

Lemma assign_cliques_raises (cs : list (list label)) (i : nat) (grouped : Series)
  (e : exn) :
  assign_cliques i cs grouped = Raise e → e = KeyError.
Proof.
  revert i grouped. induction cs as [|c cs IH]; intros i grouped; simpl; [done |].
  unfold loc_set. case_decide; simpl; [apply IH | by intros [= <-]].
Qed.

Lemma cliques_raises fc (df : Units) dd (e : exn) :
  cliques fc df dd = Raise e → e = KeyError.
Proof.
  unfold cliques. simpl.
  destruct (assign_cliques 0 _ _) as [g|e'] eqn:Hloop; simpl; [done |].
  intros [= <-]. by eapply assign_cliques_raises.
Qed.

Lemma last_clique_from_bound (cs : list (list label)) (i j : nat) (l : label) :
  last_clique_from i cs l = Some j → j < i + length cs.
Proof.
  intros (Hle & (c & Hc & _) & _)%last_clique_from_Some.
  apply lookup_lt_Some in Hc. lia.
Qed.

(** X1. [cliques] only adds the column [grouped]: the frame it returns has
    the rows of the frame it was given, in their order and with their
    labels, every other cell as it was, and each group number is the index
    of one of the enumerated cliques. *)
Theorem cliques_adds_grouped_only fc (df df' : Units) dd :
  cliques fc df dd = Ok df' →
  index df' = index df ∧
  has_grouped df' = true ∧ has_Duration df' = has_Duration df ∧
  (λ lr : label * Unit, (lr.1, set_grouped None lr.2)) <$> rows df'
  = (λ lr : label * Unit, (lr.1, set_grouped None lr.2)) <$> rows df ∧
  Forall (λ lr : label * Unit,
            ∀ g, grouped lr.2 = Some g → g < length (fc (match_graph df dd)))
         (rows df').
Proof.
  intros Hok. split; [by eapply cliques_index |].
  pose proof Hok as [_ ->]%cliques_Ok. simpl.
  split; [done |]. split; [done |]. split.
  - rewrite <- list_fmap_compose. by apply list_fmap_ext.
  - apply Forall_fmap, Forall_forall. intros [l r] _ g. simpl.
    intros Hg%last_clique_from_bound. lia.
Qed.

Lemma cliques_adds_grouped_only_witness :
  ∃ df',
    cliques find_cliques_ref four_units four_units_edges = Ok df' ∧
    index df' = index four_units ∧
    (λ lr : label * Unit, (lr.1, set_grouped None lr.2)) <$> rows df'
    = (λ lr : label * Unit, (lr.1, set_grouped None lr.2)) <$> rows four_units.
Proof.
  destruct (cliques find_cliques_ref four_units four_units_edges)
    as [df'|e] eqn:Hok; [| by vm_compute in Hok].
  exists df'. split; [reflexivity |].
  destruct (cliques_adds_grouped_only find_cliques_ref four_units df'
              four_units_edges Hok) as (Hidx & _ & _ & Hrows & _).
  split; [exact Hidx | exact Hrows].
Defined.

(** X2. Two different records that [cliques] puts into one group are
    reciprocal duplicates: the matcher named each of them for the other. *)
Theorem group_members_reciprocal fc (df df' : Units) dd (l m : label) (g : nat) :
  Forall (is_maximal_clique (match_graph df dd)) (fc (match_graph df dd)) →
  cliques fc df dd = Ok df' →
  l ∈ index df → m ∈ index df → l ≠ m →
  group_of df' l = Some g → group_of df' m = Some g →
  (l, m) ∈ dd ∧ (m, l) ∈ dd.
Proof.
  intros Hmax Hok Hl Hm Hne Hgl Hgm.
  rewrite (group_of_cliques _ _ _ _ _ Hok Hl) in Hgl.
  rewrite (group_of_cliques _ _ _ _ _ Hok Hm) in Hgm.
  destruct (same_group_same_clique _ _ _ _ Hgl Hgm) as (c & Hc & Hlc & Hmc).
  rewrite Forall_forall in Hmax. destruct (Hmax c Hc) as [Hclique _].
  pose proof (clique_members_adjacent _ _ _ _ Hclique Hlc Hmc Hne) as Hadj.
  by apply adj_match_graph in Hadj as (_ & ? & ?).
Qed.

Lemma group_members_reciprocal_witness :
  ∃ df' g,
    cliques find_cliques_ref four_units four_units_edges = Ok df' ∧
    group_of df' 0 = Some g ∧ group_of df' 1 = Some g ∧
    (0, 1) ∈ four_units_edges ∧ (1, 0) ∈ four_units_edges.
Proof.
  destruct (cliques find_cliques_ref four_units four_units_edges)
    as [df'|e] eqn:Hok; [| by vm_compute in Hok].
  assert (group_of df' 0 = Some 2 ∧ group_of df' 1 = Some 2) as [H0 H1].
  { vm_compute in Hok. injection Hok as <-. by split. }
  exists df', 2. split; [reflexivity |].
  split; [exact H0 |]. split; [exact H1 |].
  apply (group_members_reciprocal find_cliques_ref four_units df' four_units_edges
           0 1 2).
  - apply find_cliques_ref_spec.
  - exact Hok.
  - compute_done.
  - compute_done.
  - done.
  - exact H0.
  - exact H1.
Defined.

(** X3. An edge with an end that is no label of the frame makes [cliques]
    raise [KeyError]: the end is a node of the graph, some clique has it,
    and the column of group numbers has no such label. *)
Theorem cliques_unknown_label fc (df : Units) dd :
  enumerates_maximal_cliques (match_graph df dd) (fc (match_graph df dd)) →
  Exists (λ e : label * label, (e.1 ∉ index df) ∨ (e.2 ∉ index df)) dd →
  cliques fc df dd = Raise KeyError.
Proof.
  intros Hcs Hex.
  destruct (cliques fc df dd) as [df'|e] eqn:Hres.
  - exfalso. apply cliques_Ok in Hres as [Hall _].
    apply Exists_exists in Hex as (e & He & Hend).
    assert (∃ v, (v ∉ index df) ∧ v ∈ gnodes (match_graph df dd)) as (v & Hv & Hnode).
    { destruct Hend as [Hend | Hend]; [exists e.1 | exists e.2]; (split; [done |]);
        apply elem_of_gnodes_match_graph; right; exists e; auto. }
    destruct (enumeration_covers _ _ v Hcs Hnode) as (c & Hc & Hvc).
    rewrite Forall_forall in Hall. specialize (Hall c Hc).
    rewrite Forall_forall in Hall. by apply Hv, Hall.
  - f_equal. by eapply cliques_raises.
Qed.

Lemma cliques_unknown_label_witness :
  Exists (λ e : label * label,
            (e.1 ∉ index three_units) ∨ (e.2 ∉ index three_units))
         [(0, 7); (7, 0)] ∧
  cliques find_cliques_ref three_units [(0, 7); (7, 0)] = Raise KeyError.
Proof.
  assert (Exists (λ e : label * label,
                    (e.1 ∉ index three_units) ∨ (e.2 ∉ index three_units))
                 [(0, 7); (7, 0)]) as Hex by compute_done.
  split; [exact Hex |].
  exact (cliques_unknown_label find_cliques_ref three_units [(0, 7); (7, 0)]
           (find_cliques_ref_spec _) Hex).
Defined.

Lemma last_clique_from_ext (cs : list (list label)) (i : nat) (a b : label) :
  Forall (λ c, a ∈ c ↔ b ∈ c) cs →
  last_clique_from i cs a = last_clique_from i cs b.
Proof.
  intros Hall. revert i. induction Hall as [|c cs Hc _ IH]; intros i; simpl; [done |].
  rewrite IH. destruct (last_clique_from (S i) cs b); [done |].
  destruct (decide (a ∈ c)), (decide (b ∈ c)); naive_solver.
Qed.

Lemma twins_share_cliques (H : Graph) (c : list label) (a b : label) :
  adj H a b → b ∈ gnodes H →
  (∀ m, m ≠ a → m ≠ b → adj H a m → adj H b m) →
  is_maximal_clique H c → a ∈ c → b ∈ c.
Proof.
  intros Hab Hb Htwin Hmax Ha.
  apply is_maximal_clique_alt in Hmax as (Hclique & _ & Hext).
  destruct (decide (b ∈ c)) as [| Hnot]; [done | exfalso].
  destruct (Hext b Hb Hnot) as (u & Hu & Hnadj).
  destruct (decide (u = a)) as [-> | Hne]; [done |].
  assert (u ≠ b) by (intros ->; done).
  apply Hnadj, adj_sym, Htwin; [done | done |].
  eapply clique_members_adjacent; eauto.
Qed.

(** X4. Two records that name each other and have the same other
    reciprocal partners are always put into one group, whatever the order
    in which the cliques are enumerated.  In particular a pair that names
    each other and nobody else is merged. *)
Theorem twins_same_group fc (df : Units) dd (a b : label) :
  Forall (λ e : label * label, e.1 ∈ index df ∧ e.2 ∈ index df) dd →
  enumerates_maximal_cliques (match_graph df dd) (fc (match_graph df dd)) →
  a ≠ b → (a, b) ∈ dd → (b, a) ∈ dd →
  (∀ m, m ≠ a → m ≠ b →
        ((a, m) ∈ dd ∧ (m, a) ∈ dd) ↔ ((b, m) ∈ dd ∧ (m, b) ∈ dd)) →
  ∃ df' g,
    cliques fc df dd = Ok df' ∧
    group_of df' a = Some g ∧ group_of df' b = Some g.
Proof.
  intros Hdd Hcs Hne Hab Hba Htwin.
  destruct (cliques_total fc df dd Hdd Hcs) as (df' & Hok & Hsome).
  pose proof Hdd as Hends. rewrite Forall_forall in Hends.
  destruct (Hends _ Hab) as [Ha Hb]. simpl in Ha, Hb.
  destruct (Hsome a Ha) as [g Hg]. exists df', g. split; [done |].
  rewrite (group_of_cliques _ _ _ _ _ Hok Ha), (group_of_cliques _ _ _ _ _ Hok Hb).
  split; [done |]. rewrite <- Hg. symmetry. apply last_clique_from_ext.
  destruct Hcs as [Hmax _]. eapply Forall_impl; [exact Hmax |].
  intros c Hc. simpl.
  assert (adj (match_graph df dd) a b) as Hadj by (by apply adj_match_graph).
  split; intros Hin.
  - eapply (twins_share_cliques _ c a b); eauto.
    + apply elem_of_gnodes_match_graph. by left.
    + intros m Hma Hmb (_ & ? & ?)%adj_match_graph. apply adj_match_graph.
      split; [done |]. by apply Htwin.
  - eapply (twins_share_cliques _ c b a); eauto.
    + by apply adj_sym.
    + apply elem_of_gnodes_match_graph. by left.
    + intros m Hmb Hma (_ & ? & ?)%adj_match_graph. apply adj_match_graph.
      split; [done |]. by apply Htwin.
Qed.

Lemma twins_same_group_witness :
  Forall (λ e : label * label, e.1 ∈ index four_units ∧ e.2 ∈ index four_units)
         four_units_edges ∧
  ∃ df' g,
    cliques find_cliques_ref four_units four_units_edges = Ok df' ∧
    group_of df' 0 = Some g ∧ group_of df' 1 = Some g.
Proof.
  assert (Forall (λ e : label * label,
                    e.1 ∈ index four_units ∧ e.2 ∈ index four_units)
                 four_units_edges) as Hdd by compute_done.
  split; [exact Hdd |].
  apply (twins_same_group find_cliques_ref four_units four_units_edges 0 1 Hdd
           (find_cliques_ref_spec _)).
  - done.
  - compute_done.
  - compute_done.
  - intros m Hm0 Hm1. unfold four_units_edges.
    rewrite !elem_of_cons, !elem_of_nil. naive_solver.
Defined.

End resolver_more.

(** * Further properties of the name normaliser *)

Section normalizer_more.
Import Normalizer.

Lemma clean_powerplantname_Ok re {P} (df df' : DataFrame P) :
  clean_powerplantname re df = Ok df' →
  ∃ pattern,
    has_Duration df' = has_Duration df ∧ has_grouped df' = has_grouped df ∧
    rows df'
    = imap (λ i (lr : label * Row P), (i, lr.2))
        (merge_sort row_name_le
           (filter (λ lr : label * Row P, Name lr.2 ≠ Some "")
              ((λ lr : label * Row P,
                  (lr.1, set_Name (clean_cell re pattern
                                     (replace_regex re noise_characters " "
                                        (Name lr.2))) lr.2))
                 <$> rows df))).
Proof.
  unfold clean_powerplantname.
  set (name := replace_regex re noise_characters " " <$> (Name ∘ snd <$> rows df)).
  destruct (sum_lists [] (fmap (M:=option) Str.split <$> name)) as [tokens|e];
    [| done].
  cbn [mbind result_bind].
  destruct (forallb _ _); [| done].
  intros [= <-]. simpl.
  exists (word_pattern <$> (common_words tokens ++ filler_words)).
  split; [done |]. split; [done |]. do 3 f_equal.
  unfold name. rewrite <- !list_fmap_compose. apply zip_with_fmap_same.
Qed.

Lemma clean_powerplantname_index re {P} (df df' : DataFrame P) :
  clean_powerplantname re df = Ok df' → index df' = seq 0 (length (rows df')).
Proof.
  intros (pattern & _ & _ & Hrows)%clean_powerplantname_Ok.
  set (sorted := merge_sort row_name_le _) in Hrows.
  assert (length (rows df') = length sorted) as Hlen
    by (by rewrite Hrows, length_imap).
  unfold index. rewrite Hlen, Hrows.
  apply list_eq. intros i.
  rewrite list_lookup_fmap, list_lookup_imap.
  destruct (sorted !! i) as [lr|] eqn:Hi; simpl.
  - symmetry. apply lookup_seq. split; [done |]. by eapply lookup_lt_Some.
  - symmetry. apply lookup_ge_None. rewrite length_seq.
    by apply lookup_ge_None.
Qed.

Lemma clean_powerplantname_names re {P} (df df' : DataFrame P) :
  clean_powerplantname re df = Ok df' →
  StronglySorted name_le (column Name (rows df')) ∧
  Forall (λ n, n ≠ Some "") (column Name (rows df')).
Proof.
  intros (pattern & _ & _ & Hrows)%clean_powerplantname_Ok.
  set (sorted := merge_sort row_name_le _) in Hrows.
  unfold column. rewrite Hrows.
  match goal with
  | |- StronglySorted _ (?f <$> imap ?g sorted) ∧ _ =>
      assert (f <$> imap g sorted
              = (λ lr : label * Row P, Name lr.2) <$> sorted) as ->
  end.
  { apply list_eq. intros i.
    rewrite !list_lookup_fmap, list_lookup_imap. by destruct (sorted !! i). }
  split.
  - apply (StronglySorted_fmap _ row_name_le name_le); [done |].
    apply (StronglySorted_merge_sort row_name_le).
  - apply Forall_fmap, Forall_forall. intros lr Hlr. simpl.
    unfold sorted in Hlr. rewrite merge_sort_Permutation in Hlr.
    by apply list_elem_of_filter in Hlr as [? _].
Qed.

(** X5. What [clean_powerplantname] returns is sorted by Name, null names
    last, and labelled 0, 1, 2, ... in that order; no record of it has the
    empty name. *)
Theorem clean_powerplantname_sorted re {P} (df df' : DataFrame P) :
  clean_powerplantname re df = Ok df' →
  index df' = seq 0 (length (rows df')) ∧
  StronglySorted name_le (column Name (rows df')) ∧
  Forall (λ n, n ≠ Some "") (column Name (rows df')).
Proof.
  intros Hok. split.
  - by eapply clean_powerplantname_index.
  - by eapply clean_powerplantname_names.
Qed.

Lemma clean_powerplantname_sorted_witness :
  ∃ df',
    clean_powerplantname RefRegex.engine named_units = Ok df' ∧
    index df' = seq 0 (length (rows df')) ∧
    StronglySorted name_le (column Name (rows df')).
Proof.
  destruct (clean_powerplantname RefRegex.engine named_units) as [df'|e] eqn:Hok;
    [| by vm_compute in Hok].
  exists df'. split; [reflexivity |].
  destruct (clean_powerplantname_sorted RefRegex.engine named_units df' Hok)
    as (Hidx & Hsorted & _).
  split; [exact Hidx | exact Hsorted].
Defined.

Lemma set_Name_set_Name {P} (n m : option string) (r : Row P) :
  set_Name n (set_Name m r) = set_Name n r.
Proof. by destruct r. Qed.

Lemma clean_powerplantname_rows re {P} (df df' : DataFrame P) :
  clean_powerplantname re df = Ok df' →
  set_Name None <$> (rows df').*2 ⊆+ set_Name None <$> (rows df).*2.
Proof.
  intros (pattern & _ & _ & Hrows)%clean_powerplantname_Ok.
  rewrite Hrows, fmap_snd_relabel, merge_sort_Permutation.
  etrans.
  { apply fmap_submseteq, fmap_submseteq, sublist_submseteq, sublist_filter. }
  apply reflexive_eq. rewrite <- !list_fmap_compose.
  apply list_fmap_ext. intros _ [l r] _. simpl. apply set_Name_set_Name.
Qed.

(** X6. [clean_powerplantname] touches the column Name only and adds no
    row: with the names blanked, the rows it returns are rows of the frame
    it was given, each at most as often as there; the optional columns
    stay as they are. *)
Theorem clean_powerplantname_other_columns re {P} (df df' : DataFrame P) :
  clean_powerplantname re df = Ok df' →
  set_Name None <$> (rows df').*2 ⊆+ set_Name None <$> (rows df).*2 ∧
  length (rows df') ≤ length (rows df) ∧
  has_Duration df' = has_Duration df ∧ has_grouped df' = has_grouped df.
Proof.
  intros Hok. pose proof (clean_powerplantname_rows _ _ _ Hok) as Hsub.
  apply clean_powerplantname_Ok in Hok as (pattern & HD & HG & _).
  split; [done |]. split; [| done].
  apply submseteq_length in Hsub. by rewrite !length_fmap in Hsub.
Qed.

Lemma clean_powerplantname_other_columns_witness :
  ∃ df',
    clean_powerplantname RefRegex.engine named_units = Ok df' ∧
    set_Name None <$> (rows df').*2 ⊆+ set_Name None <$> (rows named_units).*2 ∧
    length (rows df') ≤ length (rows named_units).
Proof.
  destruct (clean_powerplantname RefRegex.engine named_units) as [df'|e] eqn:Hok;
    [| by vm_compute in Hok].
  exists df'. split; [reflexivity |].
  destruct (clean_powerplantname_other_columns RefRegex.engine named_units df' Hok)
    as (Hsub & Hlen & _).
  split; [exact Hsub | exact Hlen].
Defined.

Lemma elem_of_value_counts `{EqDecision A} (l : list A) (x : A) (c : nat) :
  (x, c) ∈ value_counts l ↔ x ∈ l ∧ c = count x l.
Proof.
  unfold value_counts. rewrite merge_sort_Permutation, list_elem_of_fmap.
  setoid_rewrite elem_of_uniq. naive_solver.
Qed.

(** X7. A word counts as common, and is deleted from every name of the
    batch, exactly when it occurs twenty times or more among the words of
    the batch. *)
Theorem common_words_threshold (tokens : list string) (w : string) :
  w ∈ common_words tokens ↔ 20 ≤ count w tokens.
Proof.
  unfold common_words, common_word_threshold.
  rewrite list_elem_of_fmap. split.
  - intros ([w' c] & -> & [Hc Hin]%list_elem_of_filter). simpl in *.
    by apply elem_of_value_counts in Hin as [_ <-].
  - intros Hc. exists (w, count w tokens). split; [done |].
    apply list_elem_of_filter. split; [done |].
    apply elem_of_value_counts. split; [| done].
    destruct (decide (w ∈ tokens)) as [| Hnot]; [done |].
    rewrite (count_not_elem_of tokens w Hnot) in Hc. lia.
Qed.

(** Twenty times "Werk" and once "Nord": only the first is common. *)
Example common_words_sample : common_words werk_tokens = ["Werk"].
Proof. vm_compute. reflexivity. Qed.

End normalizer_more.

(** * Further properties of the aggregator *)

Section aggregator_more.
Import Pipeline.

Lemma prop_for_groups_raises env (hd : bool) (x : list (label * Unit)) (e : exn) :
  prop_for_groups env hd x = Raise e → e = IndexError.
Proof.
  unfold prop_for_groups, index0.
  repeat (match goal with
          | |- context [value_counts ?l] =>
              destruct (value_counts l) as [|[? ?] ?]; simpl; [by intros [= <-] |]
          end).
  done.
Qed.

(** X8. [prop_for_groups] fails in one way only: it raises [IndexError],
    and it does so exactly for a group in which no member has a Name. *)
Theorem prop_for_groups_IndexError env (hd : bool) (x : list (label * Unit)) :
  (prop_for_groups env hd x = Raise IndexError ↔
   Forall (λ n, n = None) (column Name x)) ∧
  (∀ e, prop_for_groups env hd x = Raise e → e = IndexError).
Proof.
  split; [| intros e; apply prop_for_groups_raises]. split.
  - intros Hraise. apply Forall_forall. intros [n|] Hn; [exfalso | done].
    destruct (prop_for_groups_Ok env hd x) as [p Hp]; [by exists n |].
    congruence.
  - apply prop_for_groups_unnamed.
Qed.

(** ** The earliest year *)

Lemma fle_trans (x y z : float) :
  fle x y = true → fle y z = true → fle x z = true.
Proof.
  destruct x as [a| | |], y as [b| | |], z as [c| | |]; simpl; try done.
  rewrite !Qle_bool_iff. apply Qle_trans.
Qed.

Lemma fle_total (x y : float) :
  isnull x = false → isnull y = false → fle x y = true ∨ fle y x = true.
Proof.
  destruct x as [a| | |], y as [b| | |]; simpl; try done; auto.
  intros _ _. rewrite !Qle_bool_iff.
  destruct (Qlt_le_dec a b) as [Hlt|Hle]; [left; by apply Qlt_le_weak | by right].
Qed.

Lemma fle_refl (x : float) : isnull x = false → fle x x = true.
Proof. intros Hx. by destruct (fle_total x x Hx Hx). Qed.

Lemma foldl_fmin2 (y : float) (ys : list float) :
  Forall (λ z, isnull z = false) (y :: ys) →
  foldl fmin2 y ys ∈ y :: ys ∧
  ∀ z, z ∈ y :: ys → fle (foldl fmin2 y ys) z = true.
Proof.
  revert y. induction ys as [|a ys IH]; intros y Hall.
  - simpl. split; [by left |]. intros z ->%list_elem_of_singleton.
    apply fle_refl. by inversion Hall.
  - apply Forall_cons in Hall as [Hy [Ha Hys]%Forall_cons].
    assert (isnull (fmin2 y a) = false) as Hm by (unfold fmin2; by destruct (fle y a)).
    destruct (IH (fmin2 y a)) as [Hin Hle]; [by constructor |].
    cbn [foldl].
    assert (fle (fmin2 y a) y = true ∧ fle (fmin2 y a) a = true) as [Hmy Hma].
    { unfold fmin2. destruct (fle y a) eqn:Hya.
      - split; [by apply fle_refl | done].
      - split; [| by apply fle_refl].
        destruct (fle_total y a Hy Ha) as [?|?]; [congruence | done]. }
    split.
    + apply elem_of_cons in Hin as [->|Hin].
      * unfold fmin2. destruct (fle y a); [by left | right; by left].
      * right; by right.
    + intros z Hz. apply elem_of_cons in Hz as [->|[->|Hz]%elem_of_cons].
      * apply (fle_trans _ (fmin2 y a)); [apply Hle; by left | done].
      * apply (fle_trans _ (fmin2 y a)); [apply Hle; by left | done].
      * apply Hle. by right.
Qed.

Lemma fmin_spec (xs : list float) :
  (Forall (λ x, x = NaN) xs → fmin xs = NaN) ∧
  (∀ x, x ∈ xs → x ≠ NaN → fmin xs ∈ xs ∧ fle (fmin xs) x = true).
Proof.
  unfold fmin. split.
  - intros Hall.
    assert (filter (λ x, isnull x = false) xs = []) as ->; [| done].
    induction Hall as [|x xs -> _ IH]; [done |]. by rewrite filter_cons_False.
  - intros x Hx Hnn.
    assert (x ∈ filter (λ x, isnull x = false) xs) as Hxf.
    { apply list_elem_of_filter. split; [by destruct x | done]. }
    destruct (filter (λ x, isnull x = false) xs) as [|y ys] eqn:Hf;
      [by apply elem_of_nil in Hxf |].
    destruct (foldl_fmin2 y ys) as [Hin Hle].
    { rewrite <- Hf. apply Forall_forall. by intros z [? _]%list_elem_of_filter. }
    split; [| by apply Hle].
    assert (foldl fmin2 y ys ∈ filter (λ x, isnull x = false) xs) as Hin'
      by (by rewrite Hf).
    by apply list_elem_of_filter in Hin' as [_ ?].
Qed.

Lemma prop_for_groups_inv_more env (hd : bool) (x : list (label * Unit)) (p : Plant) :
  prop_for_groups env hd x = Ok p →
  projectID p = Some (column projectID x) ∧
  YearCommissioned p = fmin (column YearCommissioned x) ∧
  lat p = fmean (column lat x) ∧ lon p = fmean (column lon x) ∧
  grouped p = None.
Proof.
  unfold prop_for_groups.
  destruct (index0 (value_counts (dropna (column Name x)))) as [name|]; [| done].
  destruct (index0 (value_counts (column Country x))) as [country|]; [| done].
  destruct (index0 (value_counts (column Fueltype x))) as [fueltype|]; [| done].
  destruct (index0 (value_counts (column Technology x))) as [technology|]; [| done].
  destruct (index0 (value_counts (column Set_ x))) as [set|]; [| done].
  destruct (index0 (value_counts (column File x))) as [file|]; [| done].
  simpl. by intros [= <-].
Qed.

(** X10. The YearCommissioned of the record of a group is the earliest
    year of its members: it is the year of one of them and no member has
    an earlier one; members without a year do not count, and the record
    has no year when no member has one. *)
Theorem prop_for_groups_earliest_year env (hd : bool) (x : list (label * Unit))
  (p : Plant) :
  prop_for_groups env hd x = Ok p →
  (Forall (λ y, y = NaN) (column YearCommissioned x) → YearCommissioned p = NaN) ∧
  (∀ y, y ∈ column YearCommissioned x → y ≠ NaN →
        YearCommissioned p ∈ column YearCommissioned x ∧
        fle (YearCommissioned p) y = true).
Proof.
  intros (_ & -> & _)%prop_for_groups_inv_more. apply fmin_spec.
Qed.

Lemma prop_for_groups_earliest_year_witness :
  ∃ p, prop_for_groups (sample_env [] columns_without_Duration) false year_group = Ok p ∧
       YearCommissioned p = Fin 1975 ∧
       fle (YearCommissioned p) (Fin 1990) = true.
Proof.
  destruct (prop_for_groups (sample_env [] columns_without_Duration) false year_group)
    as [p|e] eqn:Hp; [| by vm_compute in Hp].
  exists p. split; [done |].
  destruct (prop_for_groups_earliest_year _ _ _ _ Hp) as [_ Hmin].
  split.
  - vm_compute in Hp. by injection Hp as <-.
  - apply (Hmin (Fin 1990)); [by left | done].
Defined.

(** ** All groups of a frame *)

Lemma mapM_result_inv {A B} (f : A → result B) (l : list A) (rs : list B) :
  mapM f l = Ok rs → Forall2 (λ a b, f a = Ok b) l rs.
Proof.
  revert rs. induction l as [|a l IH]; intros rs; simpl.
  - intros [= <-]. constructor.
  - destruct (f a) as [b|] eqn:Hb; [| done]. simpl.
    destruct (mapM f l) as [k|]; [| done]. simpl.
    intros [= <-]. constructor; [done | by apply IH].
Qed.

Lemma groupby_apply_inv env (df : Units) (plants : Plants) :
  groupby_apply env df = Ok (Some plants) →
  Forall2 (λ (g : nat * list (label * Unit)) (r : label * Plant),
             r.1 = g.1 ∧ prop_for_groups env (has_Duration df) g.2 = Ok r.2)
          (Resolver.groupby_grouped df) (rows plants) ∧
  has_Duration plants = bool_decide ("Duration" ∈ target_columns env false) ∧
  has_grouped plants = false.
Proof.
  unfold groupby_apply.
  destruct (Resolver.groupby_grouped df) as [|g gs]; [done |].
  destruct (mapM _ (g :: gs)) as [rs|] eqn:Hm; [| done].
  simpl. intros [= <-]. simpl. split; [| done].
  apply mapM_result_inv in Hm.
  eapply Forall2_impl; [exact Hm |].
  intros [k ms] r. simpl.
  destruct (prop_for_groups env (has_Duration df) ms) as [q|]; [| done].
  simpl. by intros [= <-].
Qed.

Lemma groupby_apply_rows env (df : Units) (plants : Plants) :
  groupby_apply env df = Ok (Some plants) →
  index plants = Resolver.group_keys df ∧
  mjoin (default [] <$> column projectID (rows plants))
  = column projectID (mjoin ((Resolver.groupby_grouped df).*2)).
Proof.
  intros [Hall _]%groupby_apply_inv.
  assert ((rows plants).*1 = (Resolver.groupby_grouped df).*1 ∧
          mjoin (default [] <$> column projectID (rows plants))
          = column projectID (mjoin ((Resolver.groupby_grouped df).*2))) as [Hk Hids].
  { induction Hall as [|g r gs rs [Hl Hp] _ [IHk IHi]]; [done |].
    apply prop_for_groups_inv_more in Hp as [Hid _].
    split.
    - rewrite !fmap_cons. by f_equal.
    - unfold column in *. rewrite !fmap_cons. cbn [mjoin list_join].
      rewrite fmap_app. f_equal; [| exact IHi].
      simpl. by rewrite Hid. }
  split; [| done].
  unfold index. rewrite Hk. unfold Resolver.groupby_grouped.
  rewrite <- list_fmap_compose. apply list_fmap_id.
Qed.

(** X11. The aggregated frame has one record for each group number of
    the input, in increasing order and labelled with it, and the lists of
    identifiers of the records, put together, are the identifiers of the
    input rows that have a group number: every grouped row is accounted
    for once, and no other row is. *)
Theorem groupby_apply_identifiers env (df : Units) (plants : Plants) :
  groupby_apply env df = Ok (Some plants) →
  index plants = Resolver.group_keys df ∧
  mjoin (default [] <$> column projectID (rows plants))
  ≡ₚ column projectID
       (filter (λ lr : label * Unit, is_Some (grouped lr.2)) (rows df)).
Proof.
  intros [Hidx Hids]%groupby_apply_rows. split; [done |].
  rewrite Hids. unfold column. apply fmap_Permutation, groupby_concat.
Qed.

Lemma groupby_apply_identifiers_witness :
  ∃ plants,
    groupby_apply (sample_env [] columns_without_Duration) grouped_units
    = Ok (Some plants) ∧
    index plants = [0; 1] ∧
    column projectID (rows plants)
    = [Some [Some "b"]; Some [Some "a"; Some "c"]].
Proof.
  destruct (groupby_apply (sample_env [] columns_without_Duration) grouped_units)
    as [[plants|]|e] eqn:Hp; [| by vm_compute in Hp | by vm_compute in Hp].
  exists plants. split; [done |].
  destruct (groupby_apply_identifiers _ _ _ Hp) as [Hidx _].
  split; [by rewrite Hidx |].
  vm_compute in Hp. by injection Hp as <-.
Defined.

End aggregator_more.

(** * Further properties of the pipeline *)

Section pipeline_more.
Import Pipeline Resolver.

Lemma read_back (rs : list (label * Unit)) :
  NoDup rs.*1 →
  (λ l, list_find (λ c : label * option nat, c.1 = l)
          ((λ lr : label * Unit, (lr.1, grouped lr.2)) <$> rs)
        ≫= (λ ic, ic.2.2)) <$> rs.*1
  = column grouped rs.
Proof.
  unfold column. induction rs as [|[l r] rs IH]; [done |].
  rewrite !fmap_cons. intros [Hl Hnd]%NoDup_cons. f_equal.
  - cbn. by rewrite decide_True.
  - rewrite <- IH by done. apply list_fmap_ext. intros _ l' Hl'%list_elem_of_lookup_2.
    cbn [list_find]. rewrite decide_False; [| simpl; intros <-; done].
    by destruct (list_find _ _) as [[? [? ?]]|].
Qed.

Lemma assign_values_own (df : Units) (f : label → option nat) :
  assign_values df
    (column grouped ((λ lr : label * Unit, (lr.1, set_grouped (f lr.1) lr.2)) <$> rows df))
  = mkFrame ((λ lr : label * Unit, (lr.1, set_grouped (f lr.1) lr.2)) <$> rows df)
            (has_Duration df) true.
Proof.
  unfold assign_values. f_equal. unfold column.
  induction (rows df) as [|[l r] rs IH]; [done |].
  rewrite !fmap_cons. cbn [zip_with]. by f_equal.
Qed.

(** X13. The cache round trip.  After a run of [aggregate_units] that
    called the matcher and wrote the groups, on a frame with distinct
    labels, a run on the same frame with [use_saved_aggregation] returns
    the same result from the file alone: it logs, reads the file, and
    neither calls the matcher nor writes. *)
Theorem aggregate_units_cache_round_trip env (df : Units) name (dc rg : bool)
  (w w' : World) res :
  has_grouped df = false → NoDup (index df) → write_fault w = None →
  aggregate_units env df false name dc rg w = (Ok res, w') →
  aggregate_units env df true name dc rg w'
  = (Ok res,
     mkWorld (files w') (write_fault w')
       (ReadCsv (cache_path env name)
        :: LogInfo ("Reading saved aggregation groups for dataset '"
                    +:+ format_name name +:+ "'.")
        :: trace w')).
Proof.
  intros Hg Hnd Hfault.
  unfold aggregate_units, load_saved_groups, resolve_groups.
  io_unfold. rewrite Hg.
  destruct (cliques (find_cliques env) df (duke env df)) as [df1|e] eqn:Hc; [| done].
  rewrite Hfault.
  destruct (aggregate_groups env df1 dc rg) as [r|e] eqn:Hagg; [| done].
  intros [= <- <-]. cbn.
  rewrite lookup_insert, decide_True by done.
  pose proof Hc as Hidx%cliques_index.
  assert (((λ lr : label * Unit, (lr.1, grouped lr.2)) <$> rows df1).*1 = index df) as Hlab.
  { rewrite <- Hidx. unfold index. rewrite <- list_fmap_compose. by apply list_fmap_ext. }
  rewrite decide_True by (by rewrite Hlab).
  assert (assign_values df
            ((λ l, option_bind _ _ (λ ic : nat * (label * option nat), ic.2.2)
                     (list_find (λ c : label * option nat, c.1 = l)
                        ((λ lr : label * Unit, (lr.1, grouped lr.2)) <$> rows df1)))
               <$> index df) = df1) as ->.
  { rewrite <- Hidx. unfold index at 1.
    pose proof (read_back (rows df1)) as Hrb. unfold mbind in Hrb.
    rewrite Hrb by (by rewrite <- Hidx in Hnd).
    apply cliques_Ok in Hc as [_ ->]. cbn [rows]. apply assign_values_own. }
  assert (has_grouped df1 = true) as -> by (by apply cliques_Ok in Hc as [_ ->]).
  by rewrite Hagg.
Qed.



Lemma aggregate_units_cache_round_trip_witness :
  ∃ res w',
    aggregate_units (sample_env four_units_edges columns_without_Duration)
      four_units false (Some "demo") false true empty_world = (Ok res, w') ∧
    (aggregate_units (sample_env four_units_edges columns_without_Duration)
       four_units true (Some "demo") false true w').1 = Ok res.
Proof.
  destruct (aggregate_units (sample_env four_units_edges columns_without_Duration)
              four_units false (Some "demo") false true empty_world)
    as [[res|e] w'] eqn:Hrun; [| by vm_compute in Hrun].
  exists res, w'. split; [reflexivity |].
  assert (NoDup (index four_units)) as Hnd by compute_done.
  by rewrite (aggregate_units_cache_round_trip
                (sample_env four_units_edges columns_without_Duration)
                four_units (Some "demo") false true empty_world w' res
                eq_refl Hnd eq_refl Hrun).
Defined.




Section bounded_effects.
Context (allowed : event → Prop) (path : string).

Lemma bounded_pure {A} (r : result A) (n : nat) :
  bounded_effects n allowed path (λ w, (r, w)).
Proof.
  intros w. cbn. split; [done |]. split; [done |].
  exists []. split; [done |]. split; [constructor |]. split; [cbn; lia | done].
Qed.

Lemma bounded_emit (ev : event) (n : nat) :
  allowed ev → ev ≠ CallDuke → bounded_effects n allowed path (emit ev).
Proof.
  intros Hev Hne w. cbn. split; [done |]. split; [done |].
  exists [ev]. split; [done |].
  split; [apply Forall_cons_2; [done | apply Forall_nil_2] |].
  split; [| done]. rewrite filter_cons_False by done. cbn. lia.
Qed.

Lemma bounded_bind {A B} (m : IO A) (k : A → IO B) (n1 n2 : nat) :
  bounded_effects n1 allowed path m →
  (∀ a, bounded_effects n2 allowed path (k a)) →
  bounded_effects (n1 + n2) allowed path (m ≫= k).
Proof.
  intros Hm Hk w. unfold mbind, IO_bind, io_bind.
  destruct (Hm w) as (Hf1 & Hp1 & log1 & Ht1 & Ha1 & Hc1 & Hd1).
  destruct (m w) as [[a|e] w1]; cbn in *.
  - destruct (Hk a w1) as (Hf2 & Hp2 & log2 & Ht2 & Ha2 & Hc2 & Hd2).
    split; [congruence |].
    split; [intros p Hp; by rewrite Hp2, Hp1 |].
    exists (log2 ++ log1). split; [by rewrite Ht2, Ht1, (assoc_L (++)) |].
    split; [by apply Forall_app |].
    split; [rewrite filter_app, length_app; lia |].
    intros Hnot. rewrite not_elem_of_app in Hnot. destruct Hnot as [H2 H1].
    by rewrite Hd2, Hd1.
  - split; [done |]. split; [done |]. exists log1.
    split; [done |]. split; [done |]. split; [lia | done].
Qed.

Lemma bounded_try_except {A} (m h : IO A) (classes : list exn) (n1 n2 : nat) :
  bounded_effects n1 allowed path m → bounded_effects n2 allowed path h →
  bounded_effects (n1 + n2) allowed path (try_except m classes h).
Proof.
  intros Hm Hh w. unfold try_except.
  destruct (Hm w) as (Hf1 & Hp1 & log1 & Ht1 & Ha1 & Hc1 & Hd1).
  destruct (m w) as [[a|e] w1]; cbn in *.
  - split; [done |]. split; [done |]. exists log1.
    split; [done |]. split; [done |]. split; [lia | done].
  - destruct (decide (e ∈ classes)); cbn.
    + destruct (Hh w1) as (Hf2 & Hp2 & log2 & Ht2 & Ha2 & Hc2 & Hd2).
      split; [congruence |].
      split; [intros p Hp; by rewrite Hp2, Hp1 |].
      exists (log2 ++ log1). split; [by rewrite Ht2, Ht1, (assoc_L (++)) |].
      split; [by apply Forall_app |].
      split; [rewrite filter_app, length_app; lia |].
      intros Hnot. rewrite not_elem_of_app in Hnot. destruct Hnot as [H2 H1].
      by rewrite Hd2, Hd1.
    + split; [done |]. split; [done |]. exists log1.
      split; [done |]. split; [done |]. split; [lia | done].
Qed.

Lemma bounded_weaken {A} (m : IO A) (n n' : nat) :
  n ≤ n' → bounded_effects n allowed path m → bounded_effects n' allowed path m.
Proof.
  intros Hle Hm w. destruct (Hm w) as (Hf & Hp & log & Ht & Ha & Hc & Hd).
  split; [done |]. split; [done |]. exists log.
  split; [done |]. split; [done |]. split; [lia | done].
Qed.

Lemma bounded_read_groups (idx : list label) :
  allowed (ReadCsv path) → bounded_effects 0 allowed path (read_groups path idx).
Proof.
  intros Hev. unfold read_groups.
  apply (bounded_bind _ _ 0 0); [by apply bounded_emit |].
  intros _ w. cbn. split; [done |]. split; [done |].
  exists []. split; [done |]. split; [constructor |]. split; [cbn; lia | done].
Qed.

End bounded_effects.

Lemma load_saved_groups_effects env (df : Units) (usa : bool) name allowed :
  (∀ msg, allowed (LogInfo msg)) → (∀ msg, allowed (LogWarning msg)) →
  allowed (ReadCsv (cache_path env name)) →
  bounded_effects 0 allowed (cache_path env name)
    (load_saved_groups env df usa name).
Proof.
  intros Hinfo Hwarn Hread. unfold load_saved_groups.
  destruct usa; [| apply bounded_pure].
  apply (bounded_try_except _ _ _ _ _ 0 0).
  - apply (bounded_bind _ _ _ _ 0 0); [by apply bounded_emit |]. intros _.
    apply (bounded_bind _ _ _ _ 0 0); [by apply bounded_read_groups |]. intros groups.
    apply bounded_pure.
  - apply (bounded_bind _ _ _ _ 0 0); [by apply bounded_emit |]. intros _.
    apply bounded_pure.
Qed.

Lemma resolve_groups_effects env (df : Units) name allowed :
  allowed CallDuke → allowed (ToCsv (cache_path env name)) →
  bounded_effects 1 allowed (cache_path env name) (resolve_groups env df name).
Proof.
  unfold resolve_groups. generalize (cache_path env name). intros path Hduke Hwrite.
  destruct (has_grouped df); [by apply bounded_pure |].
  intros w. io_unfold.
  destruct (cliques _ _ _) as [df1|]; cbn;
    [destruct (write_fault w) as [e|] eqn:Hf; cbn;
       [destruct (decide (e ∈ [IndexError])); cbn |] |].
  1-3: split; [done |];
       split; [first [done | intros p Hp; by rewrite lookup_insert_ne] |];
       exists [ToCsv path; CallDuke]; split; [done |];
       split; [repeat (apply Forall_cons_2; [done |]); apply Forall_nil_2 |];
       split; [rewrite filter_cons_False, filter_cons_True by done; cbn; lia |];
       intros Hnot; exfalso; apply Hnot; right; by left.
  split; [done |]. split; [done |].
  exists [CallDuke]. split; [done |].
  split; [apply Forall_cons_2; [done | apply Forall_nil_2] |].
  split; [rewrite filter_cons_True by done; cbn; lia |].
  intros Hnot. exfalso. apply Hnot. by left.
Qed.

Lemma aggregate_units_effects env (df : Units) (usa : bool) name (dc rg : bool)
  allowed :
  (∀ msg, allowed (LogInfo msg)) → (∀ msg, allowed (LogWarning msg)) →
  allowed (ReadCsv (cache_path env name)) →
  allowed CallDuke → allowed (ToCsv (cache_path env name)) →
  bounded_effects 1 allowed (cache_path env name)
    (aggregate_units env df usa name dc rg).
Proof.
  intros Hinfo Hwarn Hread Hduke Hwrite. unfold aggregate_units.
  apply (bounded_bind _ _ _ _ 0 1); [by apply load_saved_groups_effects |].
  intros df1.
  apply (bounded_bind _ _ _ _ 1 0); [by apply resolve_groups_effects |].
  intros df2. apply bounded_pure.
Qed.

(** X15. What [clean_single] does to the world: it changes no file but the
    cache file of the dataset and leaves the write fault alone; it calls
    the matcher at most once; it reads and writes the cache file, calls the
    matcher and warns only when it aggregates; and as long as the matcher
    was not called no file has changed. *)
Theorem clean_single_effects env (df : Units) name (ag usa dc rg : bool)
  (w : World) :
  write_fault (clean_single env df name ag usa dc rg w).2 = write_fault w ∧
  (∀ p, p ≠ cache_path env (Some (default "Unnamed dataset" name)) →
        files (clean_single env df name ag usa dc rg w).2 !! p = files w !! p) ∧
  ∃ log,
    trace (clean_single env df name ag usa dc rg w).2 = log ++ trace w ∧
    Forall (clean_single_event ag
              (cache_path env (Some (default "Unnamed dataset" name)))) log ∧
    length (filter (λ ev, ev = CallDuke) log) ≤ 1 ∧
    (CallDuke ∉ log → files (clean_single env df name ag usa dc rg w).2 = files w).
Proof.
  set (path := cache_path env (Some (default "Unnamed dataset" name))).
  cut (bounded_effects 1 (clean_single_event ag path) path
         (clean_single env df name ag usa dc rg)); [intros H; apply H |].
  unfold clean_single.
  destruct (ag && usa && bool_decide (name = None)); [apply bounded_pure |].
  apply (bounded_bind _ _ _ _ 0 1); [by apply bounded_emit |]. intros _.
  apply (bounded_bind _ _ _ _ 0 1); [apply bounded_pure |]. intros df1.
  apply (bounded_bind _ _ _ _ 1 0).
  - destruct ag; [| apply bounded_pure].
    apply (bounded_bind _ _ _ _ 0 1); [by apply bounded_emit |]. intros _.
    by apply aggregate_units_effects.
  - intros res.
    apply (bounded_bind _ _ _ _ 0 0); [apply bounded_pure |]. intros out.
    destruct rg; [| apply bounded_pure].
    destruct (res.2); apply bounded_pure.
Qed.


(** ** What the driver returns *)

Lemma clean_technology_names re {P} (df : DataFrame P) (gh : bool) :
  index (Canonicalizer.clean_technology re df gh) = index df ∧
  column Name (rows (Canonicalizer.clean_technology re df gh)) = column Name (rows df) ∧
  column projectID (rows (Canonicalizer.clean_technology re df gh))
  = column projectID (rows df).
Proof.
  unfold Canonicalizer.clean_technology. case_decide; [done |].
  unfold index, column. cbn [rows]. rewrite <- !list_fmap_compose.
  split; [| split]; by apply list_fmap_ext.
Qed.

Lemma aggregate_groups_inv env (df : Units) (dc rg : bool) out groups :
  aggregate_groups env df dc rg = Ok (out, groups) →
  ∃ plants,
    groupby_apply env df = Ok (Some plants) ∧
    Normalizer.clean_powerplantname (re env)
      (reset_index (if has_Duration plants then replace_zero_Duration plants
                    else plants)) = Ok (data out) ∧
    columns out = Some (target_columns env dc) ∧
    groups = if rg
             then Some ((λ lr : label * Unit, (projectID lr.2, grouped lr.2)) <$> rows df)
             else None.
Proof.
  unfold aggregate_groups.
  destruct (groupby_apply env df) as [[plants|]|]; [| done | done].
  unfold mbind, result_bind.
  destruct (Normalizer.clean_powerplantname (re env) _) as [df'|] eqn:Hclean; [| done].
  intros [= <- <-]. by exists plants.
Qed.

Lemma aggregate_units_inv env (df : Units) (usa : bool) name (dc rg : bool)
  (w w' : World) res :
  aggregate_units env df usa name dc rg w = (Ok res, w') →
  ∃ df1 w1 df2,
    load_saved_groups env df usa name w = (Ok df1, w1) ∧
    resolve_groups env df1 name w1 = (Ok df2, w') ∧
    aggregate_groups env df2 dc rg = Ok res.
Proof.
  unfold aggregate_units, mbind, IO_bind, io_bind, lift.
  destruct (load_saved_groups env df usa name w) as [[df1|] w1] eqn:Hload;
    [| by intros [=]].
  destruct (resolve_groups env df1 name w1) as [[df2|] w2] eqn:Hres;
    [| by intros [=]].
  intros [= Hagg <-]. by exists df1, w1, df2.
Qed.

Lemma clean_single_inv env (df : Units) name (ag usa dc rg : bool) (w w' : World)
  out groups :
  clean_single env df name ag usa dc rg w = (Ok (out, groups), w') →
  ∃ df1 out0,
    Normalizer.clean_powerplantname (re env) df = Ok df1 ∧
    data out = Canonicalizer.clean_technology (re env) (data out0) false ∧
    (ag = false ∧ data out0 = wrap_projectID df1 ∨
     ag = true ∧ ∃ w1 w2 g,
       aggregate_units env df1 usa (Some (default "Unnamed dataset" name)) dc rg w1
       = (Ok (out0, g), w2)).
Proof.
  unfold clean_single.
  destruct (ag && usa && bool_decide (name = None)); [done |].
  io_unfold.
  destruct (Normalizer.clean_powerplantname (re env) df) as [df1|]; [| done].
  destruct ag.
  - destruct (aggregate_units env df1 usa _ dc rg _) as [[[out0 g]|] w2] eqn:Hagg;
      [| done].
    cbn. unfold clean_technology_output.
    intros Hrun. exists df1, out0. split; [done |].
    split; [| right; split; [done |]; eauto].
    destruct (columns out0) as [cols|]; [case_decide |].
    all: cbn in Hrun; destruct rg; try destruct g; by simplify_eq.
  - cbn. intros Hrun. exists df1, (mkOutput (wrap_projectID df1) None).
    split; [done |]. split; [| by left].
    destruct rg; by simplify_eq.
Qed.

(** X16. Whatever its flags, the frame [clean_single] returns is sorted by
    Name and labelled 0, 1, 2, ... in that order, and none of its records
    has the empty name. *)
Theorem clean_single_sorted env (df : Units) name (ag usa dc rg : bool)
  (w w' : World) out groups :
  clean_single env df name ag usa dc rg w = (Ok (out, groups), w') →
  index (data out) = seq 0 (length (rows (data out))) ∧
  StronglySorted Normalizer.name_le (column Name (rows (data out))) ∧
  Forall (λ n, n ≠ Some "") (column Name (rows (data out))).
Proof.
  intros (df1 & out0 & Hclean & -> & Hcase)%clean_single_inv.
  destruct (clean_technology_names (re env) (data out0) false) as (Hidx & Hnames & _).
  assert (length (rows (Canonicalizer.clean_technology (re env) (data out0) false))
          = length (rows (data out0))) as Hlen.
  { apply (f_equal length) in Hidx. unfold index in Hidx.
    by rewrite !length_fmap in Hidx. }
  rewrite Hidx, Hnames, Hlen.
  destruct Hcase as [[_ ->]|(_ & w1 & w2 & g & Hagg)].
  - assert (index (wrap_projectID df1) = index df1) as ->.
    { unfold index, wrap_projectID. cbn [rows].
      rewrite <- list_fmap_compose. by apply list_fmap_ext. }
    assert (column Name (rows (wrap_projectID df1)) = column Name (rows df1)) as ->.
    { unfold column, wrap_projectID. cbn [rows].
      rewrite <- list_fmap_compose. by apply list_fmap_ext. }
    assert (length (rows (wrap_projectID df1)) = length (rows df1)) as ->
      by (unfold wrap_projectID; cbn [rows]; by rewrite length_fmap).
    split; [by eapply clean_powerplantname_index |].
    by eapply clean_powerplantname_names.
  - apply aggregate_units_inv in Hagg as (? & ? & df2 & _ & _ & Hagg).
    apply aggregate_groups_inv in Hagg as (plants & _ & Hclean' & _).
    split; [by eapply clean_powerplantname_index |].
    by eapply clean_powerplantname_names.
Qed.


Lemma clean_single_sorted_witness :
  ∃ out groups w',
    clean_single (sample_env four_units_edges columns_without_Duration)
      four_units (Some "demo") true false false true empty_world
    = (Ok (out, groups), w') ∧
    index (data out) = [0; 1; 2] ∧
    StronglySorted Normalizer.name_le (column Name (rows (data out))).
Proof.
  destruct (clean_single (sample_env four_units_edges columns_without_Duration)
              four_units (Some "demo") true false false true empty_world)
    as [[[out groups]|e] w'] eqn:Hrun; [| by vm_compute in Hrun].
  exists out, groups, w'. split; [reflexivity |].
  destruct (clean_single_sorted _ _ _ _ _ _ _ _ _ _ _ Hrun) as (Hidx & Hsorted & _).
  split; [| exact Hsorted].
  rewrite Hidx. vm_compute in Hrun. by injection Hrun as <- _ _.
Defined.

(** X17. Asked for the aggregation groups without aggregating,
    [clean_single] has nothing to return them from: once the names are
    cleaned it raises [UnboundLocalError], having logged one message and
    touched no file. *)
Theorem clean_single_groups_unbound env (df df1 : Units) name (usa dc : bool)
  (w : World) :
  Normalizer.clean_powerplantname (re env) df = Ok df1 →
  clean_single env df name false usa dc true w
  = (Raise UnboundLocalError,
     mkWorld (files w) (write_fault w)
       (LogInfo ("Cleaning plant names in '" +:+ default "Unnamed dataset" name +:+ "'.")
        :: trace w)).
Proof.
  intros Hclean. unfold clean_single. cbn. io_unfold. by rewrite Hclean.
Qed.

Lemma clean_single_groups_unbound_witness :
  (clean_single (sample_env [] columns_without_Duration) named_units None
     false false false true empty_world).1 = Raise UnboundLocalError.
Proof.
  destruct (Normalizer.clean_powerplantname RefRegex.engine named_units)
    as [df1|e] eqn:Hclean; [| by vm_compute in Hclean].
  by rewrite (clean_single_groups_unbound (sample_env [] columns_without_Duration)
                named_units df1 None false false empty_world Hclean).
Defined.


(** ** The groups that are returned *)

Lemma load_saved_groups_projectID env (df df1 : Units) (usa : bool) name
  (w w1 : World) :
  load_saved_groups env df usa name w = (Ok df1, w1) →
  column projectID (rows df1) = column projectID (rows df).
Proof.
  unfold load_saved_groups. destruct usa; [| by intros [= <- _]].
  io_unfold.
  destruct (files w !! _) as [[g|]|]; cbn.
  - case_decide; cbn.
    + intros [= <- _]. unfold assign_values, column, index. cbn [rows].
      generalize (λ l : label,
        option_bind _ _ (λ ic : nat * (label * option nat), ic.2.2)
          (list_find (λ c : label * option nat, c.1 = l) g)).
      intros f. induction (rows df) as [|[l r] rs IH]; [done |].
      rewrite !fmap_cons. cbn [zip_with]. rewrite fmap_cons. by f_equal.
    + intros [= <- _]. destruct (has_grouped df); [| done].
      unfold drop_grouped, column. cbn [rows].
      rewrite <- list_fmap_compose. by apply list_fmap_ext.
  - intros [= <- _]. destruct (has_grouped df); [| done].
    unfold drop_grouped, column. cbn [rows].
    rewrite <- list_fmap_compose. by apply list_fmap_ext.
  - intros [= <- _]. destruct (has_grouped df); [| done].
    unfold drop_grouped, column. cbn [rows].
    rewrite <- list_fmap_compose. by apply list_fmap_ext.
Qed.

Lemma resolve_groups_projectID env (df df1 : Units) name (w w1 : World) :
  resolve_groups env df name w = (Ok df1, w1) →
  column projectID (rows df1) = column projectID (rows df).
Proof.
  unfold resolve_groups. destruct (has_grouped df); [by intros [= <- _] |].
  io_unfold.
  destruct (cliques _ _ _) as [df2|] eqn:Hc; [| done].
  assert (column projectID (rows df2) = column projectID (rows df)) as Hcol.
  { apply cliques_Ok in Hc as [_ ->]. unfold column. cbn [rows].
    rewrite <- list_fmap_compose. by apply list_fmap_ext. }
  destruct (write_fault w); cbn; [case_decide |]; by intros [= <- _].
Qed.

Lemma submseteq_mjoin {A} (l1 l2 : list (list A)) :
  l1 ⊆+ l2 → mjoin l1 ⊆+ mjoin l2.
Proof.
  induction 1 as [|x l1 l2 _ IH|x y l|x l1 l2 _ IH|l1 l2 l3 _ IH1 _ IH2].
  - done.
  - cbn. by apply submseteq_app.
  - cbn. rewrite !(assoc_L (++)). apply submseteq_app; [| done].
    by rewrite (comm (++) y x).
  - cbn. by apply submseteq_inserts_l.
  - by etrans.
Qed.

(** X18. The groups [aggregate_units] returns list the identifier of every
    record of the input, in input order, and every identifier in the
    identifier lists of the aggregated frame is one of those that have a
    group number, no more often than there. *)
Theorem aggregate_units_groups env (df : Units) (usa : bool) name (dc : bool)
  (w w' : World) out groups :
  aggregate_units env df usa name dc true w = (Ok (out, groups), w') →
  ∃ gs, groups = Some gs ∧
        gs.*1 = column projectID (rows df) ∧
        mjoin (default [] <$> column projectID (rows (data out)))
        ⊆+ (filter (λ c : option string * option nat, is_Some c.2) gs).*1.
Proof.
  intros (df1 & w1 & df2 & Hload & Hres & Hagg)%aggregate_units_inv.
  apply aggregate_groups_inv in Hagg as (plants & Hgroup & Hclean & _ & ->).
  eexists. split; [done |]. split.
  - rewrite <- list_fmap_compose.
    rewrite <- (load_saved_groups_projectID _ _ _ _ _ _ _ Hload).
    by rewrite <- (resolve_groups_projectID _ _ _ _ _ _ Hres).
  - apply clean_powerplantname_rows in Hclean.
    apply (fmap_submseteq projectID) in Hclean.
    rewrite <- !list_fmap_compose in Hclean.
    assert (column projectID (rows (data out)) ⊆+ column projectID (rows plants))
      as Hsub.
    { unfold column. etrans; [| etrans; [exact Hclean |]]; apply reflexive_eq.
      - by apply list_fmap_ext.
      - unfold reset_index. cbn [rows].
        rewrite (list_fmap_compose snd (projectID ∘ set_Name None)).
        rewrite fmap_snd_relabel, <- list_fmap_compose.
        destruct (has_Duration plants); [| by apply list_fmap_ext].
        unfold replace_zero_Duration. cbn [rows].
        rewrite <- list_fmap_compose. by apply list_fmap_ext. }
    etrans; [apply submseteq_mjoin, fmap_submseteq, Hsub |].
    apply groupby_apply_rows in Hgroup as [_ ->].
    apply Permutation_submseteq.
    unfold column. rewrite groupby_concat.
    apply reflexive_eq. induction (rows df2) as [|[l r] rs IH]; [done |].
    rewrite fmap_cons. cbn [snd].
    destruct (decide (is_Some (grouped r))).
    + rewrite !filter_cons_True by done. rewrite !fmap_cons. by f_equal.
    + by rewrite !filter_cons_False by done.
Qed.

Lemma aggregate_units_groups_witness :
  ∃ out w',
    aggregate_units (sample_env four_units_edges columns_without_Duration)
      four_units false (Some "demo") false true empty_world
    = (Ok (out, Some [(Some "a", Some 2); (Some "b", Some 2);
                      (Some "c", Some 1); (Some "d", Some 0)]), w') ∧
    mjoin (default [] <$> column projectID (rows (data out)))
    ⊆+ [Some "a"; Some "b"; Some "c"; Some "d"].
Proof.
  destruct (aggregate_units (sample_env four_units_edges columns_without_Duration)
              four_units false (Some "demo") false true empty_world)
    as [[[out groups]|e] w'] eqn:Hrun; [| by vm_compute in Hrun].
  exists out, w'.
  destruct (aggregate_units_groups _ _ _ _ _ _ _ _ _ Hrun) as (gs & -> & _ & Hsub).
  assert (gs = [(Some "a", Some 2); (Some "b", Some 2);
                (Some "c", Some 1); (Some "d", Some 0)]) as ->.
  { vm_compute in Hrun. by injection Hrun as _ <- _. }
  split; [reflexivity | exact Hsub].
Defined.

End pipeline_more.

(** * Further properties of the classifiers *)

Section classifier_more.
Import Classifier.

Lemma column_cells_prefix (h h' : heap) (df : Frame) (col : string)
  (cells : list cell) :
  h `prefix_of` h' → column_cells h df col = Some cells →
  column_cells h' df col = Some cells.
Proof.
  intros [k ->]. unfold column_cells.
  destruct (column_loc df col) as [l|]; [| done]. cbn.
  apply lookup_app_l_Some.
Qed.

(** X19. [gather_set_info] and [gather_technology_info] do not write into
    the frame they are given: each of its columns reads afterwards as it
    read before, whether the call returned or raised. *)
Theorem gather_info_keeps_frame re target_technologies (df : Frame)
  (search_col : list string) (h : heap) (col : string) (cells : list cell) :
  column_cells h df col = Some cells →
  column_cells (gather_set_info re df search_col h).2 df col = Some cells ∧
  column_cells (gather_technology_info re target_technologies df search_col h).2
               df col = Some cells.
Proof.
  intros Hcol. split.
  - eapply column_cells_prefix; [apply gather_set_info_keeps_input | done].
  - eapply column_cells_prefix; [apply gather_technology_info_keeps_input | done].
Qed.

Lemma gather_info_keeps_frame_witness :
  column_cells (gather_set_info RefRegex.engine set_frame
                  ["Name"; "Fueltype"] set_store).2 set_frame "Set"
  = Some [None; Some "CHP"; Some "CHP"; None] ∧
  column_cells (gather_technology_info RefRegex.engine sample_technologies set_frame
                  ["Name"; "Fueltype"] set_store).2 set_frame "Set"
  = Some [None; Some "CHP"; Some "CHP"; None].
Proof.
  apply (gather_info_keeps_frame RefRegex.engine sample_technologies set_frame).
  reflexivity.
Defined.

(** ** Every record gets a Set *)

Lemma bind_Ok {A B} (m : M A) (k : A → M B) (h h' : heap) (b : B) :
  (m ≫= k) h = (Ok b, h') → ∃ a h1, m h = (Ok a, h1) ∧ k a h1 = (Ok b, h').
Proof.
  unfold mbind, M_bind. destruct (m h) as [[a|e] h1]; [| done]. eauto.
Qed.

Lemma copy_columns_Ok (cols cols' : list (string * loc)) (h h' : heap) :
  copy_columns cols h = (Ok cols', h') → cols'.*1 = cols.*1.
Proof.
  revert cols' h h'. induction cols as [|[name l] cols IH]; intros cols' h h'; simpl.
  - by intros [= <- _].
  - unfold mbind, M_bind, read, alloc. cbn.
    destruct (copy_columns cols _) as [[rest|] h2] eqn:Hrest; [| done].
    cbn. intros [= <- _]. cbn. f_equal. by eapply IH.
Qed.

Lemma column_loc_set_column (cols : list (string * loc)) (col : string) (l : loc)
  (index : list label) :
  column_loc (mkFrame index (set_column cols col l)) col = Some l.
Proof.
  unfold column_loc, set_column. cbn [f_columns]. case_bool_decide as Hin.
  - induction cols as [|[c l'] cols IH]; [by apply elem_of_nil in Hin |].
    rewrite fmap_cons. cbn [list_find fst].
    destruct (decide (c = col)) as [->|Hne].
    + cbn. by rewrite decide_True.
    + cbn. rewrite decide_False by done.
      rewrite fmap_cons in Hin. apply elem_of_cons in Hin as [Heq|Hin]; [done |].
      specialize (IH Hin).
      destruct (list_find _ _) as [[i [c' l'']]|]; [| done].
      cbn in *. done.
  - induction cols as [|[c l'] cols IH]; cbn.
    + by rewrite decide_True.
    + rewrite fmap_cons, not_elem_of_cons in Hin. destruct Hin as [Hne Hin].
      rewrite decide_False by done. specialize (IH Hin).
      destruct (list_find _ _) as [[i [c' l'']]|]; [| done].
      cbn in *. done.
Qed.

Lemma assign_Ok (df df' : Frame) (col : string) (s : Series) (h h' : heap) :
  assign df col s h = (Ok df', h') →
  f_index df' = f_index df ∧
  ∃ l cells, length cells = length (f_index df) ∧
             column_loc df' col = Some l ∧ h' !! l = Some cells.
Proof.
  unfold assign.
  intros (cols & h1 & _ & (vs & h2 & _ & Hrest)%bind_Ok)%bind_Ok.
  revert Hrest. unfold mbind, M_bind, alloc, mret, M_ret. cbn.
  intros [= <- <-]. split; [done |].
  exists (length h2), (reindex None vs (f_index df)).
  split; [unfold reindex; by rewrite length_fmap |].
  split; [apply column_loc_set_column |].
  by rewrite lookup_app_r, Nat.sub_diag.
Qed.

(** X20. In the frame [gather_set_info] returns every record has a Set:
    the column has a cell for each label of the index, none of them null,
    and the index is that of the frame that was given. *)
Theorem gather_set_info_no_null re (df df' : Frame) (search_col : list string)
  (h h' : heap) :
  gather_set_info re df search_col h = (Ok df', h') →
  f_index df' = f_index df ∧
  ∃ cells, column_cells h' df' "Set" = Some cells ∧
           length cells = length (f_index df) ∧
           Forall (λ c, c ≠ None) cells.
Proof.
  unfold gather_set_info.
  intros (Set_ & h1 & _ & Hrest)%bind_Ok.
  apply bind_Ok in Hrest as (_ & h2 & _ & Hrest).
  apply bind_Ok in Hrest as (_ & h3 & _ & Hrest).
  apply bind_Ok in Hrest as (df1 & h4 & Hassign & Hrest).
  apply assign_Ok in Hassign as (Hidx & l & cells & Hlen & Hloc & Hcells).
  unfold getitem in Hrest. rewrite Hloc in Hrest.
  revert Hrest. unfold fillna_inplace, read, write, mbind, M_bind, mret, M_ret.
  cbn [s_data fst snd]. rewrite Hcells. cbn [default]. intros [= <- <-].
  split; [done |]. eexists. unfold column_cells. rewrite Hloc. cbn [mbind option_bind].
  split; [apply list_lookup_insert_eq; by eapply lookup_lt_Some |].
  split; [by rewrite length_fmap |].
  apply Forall_fmap, Forall_forall. intros c _. cbn. by case_decide.
Qed.

Lemma gather_set_info_no_null_witness :
  ∃ df' h' cells,
    gather_set_info RefRegex.engine set_frame ["Name"; "Fueltype"; "Technology"]
                    set_store = (Ok df', h') ∧
    column_cells h' df' "Set" = Some cells ∧
    Forall (λ c, c ≠ None) cells.
Proof.
  destruct (gather_set_info RefRegex.engine set_frame
              ["Name"; "Fueltype"; "Technology"] set_store)
    as [[df'|e] h'] eqn:Hrun; [| by vm_compute in Hrun].
  destruct (gather_set_info_no_null _ _ _ _ _ _ Hrun)
    as (_ & cells & Hcells & _ & Hnn).
  exists df', h', cells. split; [reflexivity |].
  split; [exact Hcells | exact Hnn].
Defined.



(** ** Fuel type refinement and the frame it is given *)

Lemma for_each_invariant {A} (I : heap → Prop) (items : list A) (body : A → M unit) :
  (∀ i h, I h → I (body i h).2) → ∀ h, I h → I (for_each items body h).2.
Proof.
  intros Hbody. induction items as [|i items IH]; intros h Hh; [done |].
  cbn [for_each]. unfold mbind, M_bind.
  specialize (Hbody i h Hh). destruct (body i h) as [[[]|e] h1]; cbn in *.
  - by apply IH.
  - done.
Qed.

Lemma lignite_step_length re (df : Frame) (fueltype : Series) (i : string) (h : heap) :
  s_data fueltype < length h →
  s_data fueltype
  < length ((found_b ← contains_mask re df i false "(?i)lignite|brown"
                          (s_index fueltype);
             loc_set_mask fueltype found_b "Lignite") h).2.
Proof.
  intros Hl. unfold mbind at 1. unfold M_bind.
  destruct (keeps_contains_mask re h df i false "(?i)lignite|brown"
              (s_index fueltype) h) as [Hpre _]; [done |].
  apply prefix_length in Hpre.
  destruct (contains_mask re df i false _ _ h) as [[mask|e] h1]; cbn in *; [| lia].
  unfold loc_set_mask, read, write, mbind, M_bind. cbn.
  rewrite length_insert. lia.
Qed.

(** X21. After a call of [gather_fueltype_info] that returns, the Fueltype
    column of the frame that was handed in has no cell Coal any more: the
    renaming to Hard Coal, like the marking as Lignite, is written into
    the caller's column.  A frame that had a Coal cell is therefore not
    what it was. *)
Theorem gather_fueltype_info_rewrites_input re (df df' : Frame)
  (search_col : list string) (h h' : heap) (cells : list cell) :
  column_cells h df "Fueltype" = Some cells →
  gather_fueltype_info re df search_col h = (Ok df', h') →
  ∃ cells', column_cells h' df "Fueltype" = Some cells' ∧
            (Some "Coal" ∉ cells') ∧
            (Some "Coal" ∈ cells → cells' ≠ cells).
Proof.
  unfold column_cells. destruct (column_loc df "Fueltype") as [l|] eqn:Hloc; [| done].
  cbn [mbind option_bind]. intros Hcells.
  unfold gather_fueltype_info, getitem. rewrite Hloc.
  unfold Series_of. intros Hrun.
  apply bind_Ok in Hrun as (s & h0 & [= <- <-] & Hrun).
  apply bind_Ok in Hrun as (fueltype & h0 & [= <- <-] & Hrun).
  apply bind_Ok in Hrun as ([] & h1 & Hloop & Hrun).
  apply bind_Ok in Hrun as ([] & h2 & Hrename & Hassign).
  assert (l < length h1) as Hl.
  { change (l < length (Ok (), h1).2). rewrite <- Hloop.
    apply (for_each_invariant (λ h, l < length h)).
    - intros i h0 Hh0.
      apply (lignite_step_length re df (mkSeries (f_index df) l) i h0 Hh0).
    - by eapply lookup_lt_Some. }
  revert Hrename. unfold replace_inplace, read, write, mbind, M_bind, mret, M_ret.
  cbn [s_data fst snd]. intros [= Hh2].
  destruct (keeps_assign h2 df "Fueltype" (mkSeries (f_index df) l) h2)
    as [[k Hk] _]; [done |].
  rewrite Hassign in Hk. cbn [snd] in Hk.
  assert (∃ cells', h' !! l = Some cells' ∧ (Some "Coal" ∉ cells'))
    as (cells' & Hc' & Hno).
  { eexists. split.
    - rewrite Hk, <- Hh2. rewrite lookup_app_l by (by rewrite length_insert).
      by apply list_lookup_insert_eq.
    - intros (c & Hc & _)%list_elem_of_fmap. by case_decide. }
  exists cells'. split; [done |]. split; [done |].
  intros Hin ->. done.
Qed.

Lemma gather_fueltype_info_rewrites_input_witness :
  ∃ df' h' cells',
    gather_fueltype_info RefRegex.engine coal_frame ["Name"; "Technology"] coal_store
    = (Ok df', h') ∧
    column_cells h' coal_frame "Fueltype" = Some cells' ∧
    cells' ≠ [Some "Coal"; Some "Coal"].
Proof.
  destruct (gather_fueltype_info RefRegex.engine coal_frame ["Name"; "Technology"]
              coal_store) as [[df'|e] h'] eqn:Hrun; [| by vm_compute in Hrun].
  destruct (gather_fueltype_info_rewrites_input RefRegex.engine coal_frame df'
              ["Name"; "Technology"] coal_store h' [Some "Coal"; Some "Coal"]
              eq_refl Hrun) as (cells' & Hcells & _ & Hne).
  exists df', h', cells'. split; [reflexivity |]. split; [exact Hcells |].
  apply Hne. by left.
Defined.

End classifier_more.
